(** * A shallow embedding of launchpad.py

    The effect classes ([Note], [Rectangle], [Translate], [Sequential],
    [Concurrent], [Loop], [PaddedEffect], [Random], [RandomColor],
    [ColorWheel]) and the [Launchpad.play] render loop, followed by the
    properties of the effect algebra and of the render engine.

    Python integers are [Z].  The components of an [RGB] colour in the
    buffers are exact rationals ([Qc], so that [==] on colours is Leibniz
    equality); the scaling of a float component to a brightness is modelled
    on binary64 floats in the module [Binary64].  [Note] objects live in a
    store, because
    [Note.notes] returns [self] and [RandomColor.notes] assigns to the
    [color] attribute of an object; the [current_effect] attribute of a
    [Random] object lives in a second store. *)

From Stdlib Require Import ZArith QArith Qround Qcanon Lia.
From Stdlib Require PrimFloat FloatOps SpecFloat.
From stdpp Require Import base list.

Local Open Scope Z_scope.

(** ** Colours *)

(** A cell colour is a palette velocity (a Python [int]) or an
    [RGB(r, g, b)] named tuple of float components. *)
Inductive Color : Type :=
| Palette (intensity : Z)
| RGB (r g b : Qc).

#[global] Instance Color_eq_dec : EqDecision Color.
Proof. solve_decision. Defined.

Definition MAX_BRIGHTNESS : Z := 63.

(** Python's [int(x)] on a number given as an exact rational: truncation
    toward zero. *)
Definition py_int (x : Qc) : Z := Z.quot (Qnum x) (Z.pos (Qden x)).

(** [brightness_of_compon], lines 221-228, on the exact components of the
    buffers: the product is exact here.  The function on Python's numbers,
    with the binary64 product and the exceptions of [int], is
    [Binary64.brightness_of_compon]. *)
Definition brightness_of_compon (c : Qc) : Z :=
  let scaled := py_int (Q2Qc (inject_Z MAX_BRIGHTNESS) * c)%Qc in
  if scaled <? 0 then 0
  else if scaled >? MAX_BRIGHTNESS then MAX_BRIGHTNESS
  else scaled.

(** The scaling as the specification words it:
    [clamp(round(c * MAX_BRIGHTNESS), 0, MAX_BRIGHTNESS)], with [round] the
    nearest integer (ties to even, as Python's [round]). *)
Definition round_nearest (x : Qc) : Z :=
  let lo := Qfloor x in
  match (2 * (x - inject_Z lo) ?= 1)%Q with
  | Lt => lo
  | Gt => lo + 1
  | Eq => if Z.even lo then lo else lo + 1
  end.

Definition clamp (v lo hi : Z) : Z := Z.max lo (Z.min v hi).

Definition spec_scale (c : Qc) : Z :=
  clamp (round_nearest (c * Q2Qc (inject_Z MAX_BRIGHTNESS))%Qc) 0 MAX_BRIGHTNESS.

(** ** Exceptions, results and the interpreter state *)

Inductive exn : Type :=
| TypeError
| ValueError
| ZeroDivisionError
| IndexError
| OverflowError
| InvalidRef.
(* [InvalidRef] is not a Python exception: it marks a read of a location
   that is not in the store, which no Python execution reaches. *)

#[global] Instance exn_eq_dec : EqDecision exn.
Proof. solve_decision. Defined.

Inductive result (A : Type) : Type :=
| Ok (a : A)
| Raise (e : exn).
Arguments Ok {A} a.
Arguments Raise {A} e.

(** ** Brightness scaling on binary64 floats *)

Module Binary64.
Import PrimFloat FloatOps SpecFloat.

(** [MAX_BRIGHTNESS] (the integer 63) as the float it is converted to when
    it is multiplied by a float. *)
Definition MAX_BRIGHTNESS : float := 63.

(** Python's [int(x)] on a float: [OverflowError] for an infinity,
    [ValueError] for a NaN, otherwise the float with its fractional part
    discarded.  A finite float other than 0 is [m * 2 ^ e] with a sign;
    [Z.shiftl] by a negative [e] shifts right, which drops the fractional
    bits of the magnitude. *)
Definition py_int (x : float) : result Z :=
  match Prim2SF x with
  | S754_zero _ => Ok 0
  | S754_infinity _ => Raise OverflowError
  | S754_nan => Raise ValueError
  | S754_finite sign m e =>
      let magnitude := Z.shiftl (Z.pos m) e in
      Ok (if sign then - magnitude else magnitude)
  end.

(** A component of an [RGB] value is a Python number: an [int] or a
    [float]. *)
Inductive compon :=
| CInt (n : Z)
| CFloat (x : float).

(** [int(self.MAX_BRIGHTNESS * c)], line 222: the product of two integers is
    exact; with a float component, 63 is converted to the float 63.0 and the
    product is the binary64 product, rounded to the nearest float. *)
Definition scaled_of (c : compon) : result Z :=
  match c with
  | CInt n => Ok (63 * n)
  | CFloat x => py_int (MAX_BRIGHTNESS * x)%float
  end.

(** [brightness_of_compon], lines 221-228. *)
Definition brightness_of_compon (c : compon) : result Z :=
  match scaled_of c with
  | Raise e => Raise e
  | Ok scaled =>
      if scaled <? 0 then Ok 0
      else if scaled >? 63 then Ok 63
      else Ok scaled
  end.

(** The rational number that a finite float denotes. *)
Definition value (x : float) : option Qc :=
  match Prim2SF x with
  | S754_zero _ => Some (Q2Qc 0)
  | S754_finite sign m e =>
      let magnitude :=
        if 0 <=? e then inject_Z (Z.pos m * 2 ^ e)
        else Z.pos m # (2 ^ Z.to_pos (- e)) in
      Some (Q2Qc (if sign then - magnitude else magnitude)%Q)
  | S754_infinity _ | S754_nan => None
  end.

(** The scaling as the specification words it, for a Python number: the
    nearest integer of the exact product [c * 63] clamped into [[0, 63]];
    an infinite component clamps to the nearer end (and a NaN to 0) instead
    of failing. *)
Definition spec_scale (c : compon) : Z :=
  match c with
  | CInt n => spec_scale (Q2Qc (inject_Z n))
  | CFloat x =>
      match Prim2SF x with
      | S754_infinity false => 63
      | S754_infinity true | S754_nan => 0
      | _ => match value x with
             | Some q => spec_scale q
             | None => 0
             end
      end
  end.

Definition below_one_63rd : float := 0x1.041041041041p-6.

(** The float [2 ^ 1023], whose product with 63 is past the largest
    float. *)
Definition huge : float := 0x1p1023.

End Binary64.

(** A [Note] object: its [pos] and [color] attributes. *)
Record NoteObj : Type := MkNote { pos : Z * Z; color : Color }.

#[global] Instance NoteObj_eq_dec : EqDecision NoteObj.
Proof. solve_decision. Defined.

Definition loc := nat.

(** The interpreter state: the store of [Note] objects (a new object takes
    the next free index), the [current_effect] attribute of every [Random]
    object, and the pseudo-random generator, given as the sequence of raw
    values it will produce and the number of values drawn so far. *)
Record state : Type := MkState {
  heap : list NoteObj;
  sel : list (option Z);
  entropy : nat -> Z;
  draws : nat
}.

Definition M (A : Type) : Type := state -> result (A * state).

Definition ret {A} (a : A) : M A := fun s => Ok (a, s).
Definition raise {A} (e : exn) : M A := fun _ => Raise e.
Definition bind {A B} (m : M A) (k : A -> M B) : M B :=
  fun s => match m s with
           | Ok (a, s') => k a s'
           | Raise e => Raise e
           end.

Declare Scope py_scope.
Delimit Scope py_scope with py.
Notation "x <- c1 ;; c2" := (bind c1 (fun x => c2))
  (at level 100, c1 at next level, right associativity) : py_scope.
Notation "c1 ;;; c2" := (bind c1 (fun _ => c2))
  (at level 100, right associativity) : py_scope.
Local Open Scope py_scope.

(** Allocation of a fresh [Note] object. *)
Definition new_note (p : Z * Z) (c : Color) : M loc :=
  fun s => Ok (List.length (heap s),
               MkState (heap s ++ [MkNote p c]) (sel s) (entropy s) (draws s)).

Definition get_note (l : loc) : M NoteObj :=
  fun s => match heap s !! l with
           | Some n => Ok (n, s)
           | None => Raise InvalidRef
           end.

(** [obj.color = c] on the object at [l]. *)
Definition set_color (l : loc) (c : Color) : M unit :=
  fun s => match heap s !! l with
           | Some n => Ok (tt, MkState (<[l := MkNote (pos n) c]> (heap s))
                                       (sel s) (entropy s) (draws s))
           | None => Raise InvalidRef
           end.

(** [copy.deepcopy(note)]: a new object with equal attributes. *)
Definition deepcopy (l : loc) : M loc :=
  n <- get_note l ;; new_note (pos n) (color n).

Definition new_sel : M loc :=
  fun s => Ok (List.length (sel s),
               MkState (heap s) (sel s ++ [None]) (entropy s) (draws s)).

Definition get_sel (l : loc) : M (option Z) :=
  fun s => match sel s !! l with
           | Some c => Ok (c, s)
           | None => Raise InvalidRef
           end.

Definition set_sel (l : loc) (c : Z) : M unit :=
  fun s => if decide (l < List.length (sel s))%nat
           then Ok (tt, MkState (heap s) (<[l := Some c]> (sel s))
                                (entropy s) (draws s))
           else Raise InvalidRef.

(** [random.randint(lo, hi)]: [ValueError] on an empty range, otherwise the
    next raw value reduced into [[lo, hi]]. *)
Definition randint (lo hi : Z) : M Z :=
  fun s => if hi <? lo then Raise ValueError
           else Ok (lo + entropy s (draws s) mod (hi - lo + 1),
                    MkState (heap s) (sel s) (entropy s) (S (draws s))).

(** ** Effects *)

(** What a [notes] method returns: a list of references to [Note] objects,
    or [None] when the method falls off its end without a [return]. *)
Inductive pyval : Type :=
| VList (ns : list loc)
| VNone.

#[global] Instance pyval_eq_dec : EqDecision pyval.
Proof. solve_decision. Defined.

(** The effect objects, one constructor per class, holding the attributes
    that [__init__] stores.  [EffectBase] is an instance of the base class
    [Effect] itself.  [ColorWheel] keeps [max_radius] and [_length]; the
    float computation of the colour of a cell (lines 184-190) is carried as
    the function [shade tick x y], which gives the three components of the
    [RGB], or the exception that the float arithmetic raises there (the
    [OverflowError] of [**] for an extreme radius or centre). *)
#[local] Unset Elimination Schemes.
Inductive Effect : Type :=
| EffectBase
| Note (self : loc)
| Rectangle (_notes : list loc)
| Translate (child : Effect) (offset : Z * Z)
| Sequential (effects : list Effect)
| Concurrent (effects : list Effect)
| Loop (child : Effect) (n : Z)
| PaddedEffect (effect : Effect) (_length : Z) (_notes : pyval)
| Random (effects : list Effect) (current_effect : loc)
| RandomColor (child : Effect) (low high : Z)
| ColorWheel (max_radius : Qc)
             (shade : Z -> Z -> Z -> result (Qc * Qc * Qc)) (_length : Z).
#[local] Set Elimination Schemes.

(** Induction on effects, with the hypothesis available for every element
    of a list of children. *)
Section Effect_induction.
Variable P : Effect -> Prop.
Hypothesis HBase : P EffectBase.
Hypothesis HNote : forall self, P (Note self).
Hypothesis HRectangle : forall ns, P (Rectangle ns).
Hypothesis HTranslate : forall child offset,
  P child -> P (Translate child offset).
Hypothesis HSequential : forall effects,
  Forall P effects -> P (Sequential effects).
Hypothesis HConcurrent : forall effects,
  Forall P effects -> P (Concurrent effects).
Hypothesis HLoop : forall child n, P child -> P (Loop child n).
Hypothesis HPadded : forall effect len pad,
  P effect -> P (PaddedEffect effect len pad).
Hypothesis HRandom : forall effects cell,
  Forall P effects -> P (Random effects cell).
Hypothesis HRandomColor : forall child low high,
  P child -> P (RandomColor child low high).
Hypothesis HColorWheel : forall radius shade len,
  P (ColorWheel radius shade len).

Fixpoint Effect_ind (e : Effect) : P e :=
  let all :=
    fix all (l : list Effect) : Forall P l :=
      match l with
      | [] => @List.Forall_nil Effect P
      | x :: l' => @List.Forall_cons Effect P x l' (Effect_ind x) (all l')
      end in
  match e with
  | EffectBase => HBase
  | Note self => HNote self
  | Rectangle ns => HRectangle ns
  | Translate child offset => HTranslate child offset (Effect_ind child)
  | Sequential effects => HSequential effects (all effects)
  | Concurrent effects => HConcurrent effects (all effects)
  | Loop child n => HLoop child n (Effect_ind child)
  | PaddedEffect effect len pad => HPadded effect len pad (Effect_ind effect)
  | Random effects cell => HRandom effects cell (all effects)
  | RandomColor child low high =>
      HRandomColor child low high (Effect_ind child)
  | ColorWheel radius shade len => HColorWheel radius shade len
  end.
End Effect_induction.

(** [length], method by method. *)
Fixpoint length (e : Effect) : Z :=
  match e with
  | EffectBase => 1
  | Note _ => 1
  | Rectangle _ => 1
  | Translate child _ => length child
  | Sequential effects => fold_left (fun sum eff => sum + length eff) effects 0
  | Concurrent effects =>
      match effects with [] => 0 | e0 :: _ => length e0 end
  | Loop child n => length child * n
  | PaddedEffect _ _length _ => _length
  | Random effects _ =>
      match effects with [] => 0 | e0 :: _ => length e0 end
  | RandomColor child _ _ => length child
  | ColorWheel _ _ _length => _length
  end.

(** [max(effects, key=...)] on a non-empty list: the first element with the
    greatest key. *)
Definition py_max_key (key : Effect -> Z) (e0 : Effect) (rest : list Effect)
  : Effect :=
  fold_left (fun best e => if key best <? key e then e else best) rest e0.

(** [pad_effects], lines 114-120; [pad_func] defaults to [default_pad]. *)
Definition pad_effects (effects : list Effect) (pad_func : Effect -> pyval)
  : list Effect :=
  match effects with
  | [] => []
  | e0 :: rest =>
      let len := length (py_max_key length e0 rest) in
      map (fun e => if length e <? len
                    then PaddedEffect e len (pad_func e) else e) effects
  end.

Definition default_pad (x : Effect) : pyval := VList [].

(** *** Constructors ([__init__]) *)

Fixpoint mapM {A B} (f : A -> M B) (l : list A) : M (list B) :=
  match l with
  | [] => ret []
  | a :: l' => b <- f a ;; bs <- mapM f l' ;; ret (b :: bs)
  end.

(** [range(a, b)]. *)
Definition py_range (a b : Z) : list Z := seqZ a (b - a).

(** [[(x, y) for x in range(x0, x1) for y in range(y0, y1)]]. *)
Definition grid (x0 x1 y0 y1 : Z) : list (Z * Z) :=
  concat (map (fun x => map (fun y => (x, y)) (py_range y0 y1))
              (py_range x0 x1)).
Arguments grid : simpl never.

Definition Note_init (p : Z * Z) (c : Color) : M Effect :=
  l <- new_note p c ;; ret (Note l).

Definition Rectangle_init (ll ur : Z * Z) (c : Color) : M Effect :=
  ns <- mapM (fun p => new_note p c)
             (grid (fst ll) (fst ur + 1) (snd ll) (snd ur + 1)) ;;
  ret (Rectangle ns).

Definition Fullscreen (c : Color) : M Effect := Rectangle_init (-1, -1) (8, 8) c.
Definition Clear : M Effect := Fullscreen (Palette 0).

Definition Concurrent_init (effects : list Effect) : Effect :=
  Concurrent (pad_effects effects default_pad).

Definition Random_init (effects : list Effect) : M Effect :=
  cell <- new_sel ;; ret (Random (pad_effects effects default_pad) cell).

(** *** Rendering ([notes]) *)

(** Iterating over a returned value: [None] is not iterable. *)
Definition iter_val (v : pyval) : M (list loc) :=
  match v with
  | VList ns => ret ns
  | VNone => raise TypeError
  end.

(** The loop of [Sequential.notes], lines 67-71; falling out of the loop
    returns [None]. *)
Definition Sequential_notes (rec : Effect -> Z -> M pyval)
  : list Effect -> Z -> M pyval :=
  fix go effects tick :=
    match effects with
    | [] => ret VNone
    | eff :: rest =>
        if tick >=? length eff then go rest (tick - length eff)
        else rec eff tick
    end.

(** The loop of [Concurrent.notes], lines 83-86. *)
Definition Concurrent_notes (rec : Effect -> Z -> M pyval) (tick : Z)
  : list Effect -> list loc -> M pyval :=
  fix go effects lst :=
    match effects with
    | [] => ret (VList lst)
    | eff :: rest =>
        v <- rec eff tick ;; ns <- iter_val v ;; go rest (lst ++ ns)
    end.

(** [effects[i]] followed by a use [f] of the element; [IndexError] out of
    range, negative indices count from the end. *)
Definition at_index {A} (f : Effect -> M A) : list Effect -> nat -> M A :=
  fix go effects i :=
    match effects, i with
    | [], _ => raise IndexError
    | eff :: _, O => f eff
    | _ :: rest, S i' => go rest i'
    end.

Definition py_index (len i : Z) : nat :=
  if 0 <=? i then Z.to_nat i
  else if 0 <=? len + i then Z.to_nat (len + i)
  else Z.to_nat len.

(** [a % b] on integers: [ZeroDivisionError] when [b] is 0, otherwise the
    remainder with the sign of [b]. *)
Definition py_mod (a b : Z) : M Z :=
  if b =? 0 then raise ZeroDivisionError else ret (a mod b).

(** The adjustment of the draw in lines 142-143. *)
Definition skip_current (drawn current : Z) : Z :=
  if drawn >=? current then drawn + 1 else drawn.

(** The selection at tick 0, lines 138-144, for [len] children. *)
Definition Random_select (len : Z) (cell : loc) : M unit :=
  cur <- get_sel cell ;;
  match cur with
  | None => c <- randint 0 (len - 1) ;; set_sel cell c
  | Some current => c <- randint 0 (len - 2) ;;
                    set_sel cell (skip_current c current)
  end.

Fixpoint notes (e : Effect) (tick : Z) {struct e} : M pyval :=
  match e with
  | EffectBase => ret (VList [])
  | Note self => ret (VList [self])
  | Rectangle _notes => ret (VList _notes)
  | Translate child offset =>
      v <- notes child tick ;;
      ns <- iter_val v ;;
      out <- mapM (fun n => o <- get_note n ;;
                            new_note (fst (pos o) + fst offset,
                                      snd (pos o) + snd offset) (color o)) ns ;;
      ret (VList out)
  | Sequential effects => Sequential_notes notes effects tick
  | Concurrent effects => Concurrent_notes notes tick effects []
  | Loop child n =>
      m <- py_mod tick (length child) ;; notes child m
  | PaddedEffect effect _ _notes =>
      if tick <? length effect then notes effect tick else ret _notes
  | Random effects cell =>
      let len := Z.of_nat (List.length effects) in
      if len =? 0 then ret (VList [])
      else
        (if tick =? 0 then Random_select len cell else ret tt) ;;;
        cur <- get_sel cell ;;
        match cur with
        | None => raise TypeError
        | Some i =>
            at_index (fun eff => if tick >=? length eff then ret (VList [])
                                 else notes eff tick)
                     effects (py_index len i)
        end
  | RandomColor child low high =>
      v <- notes child tick ;;
      ns <- iter_val v ;;
      lst <- mapM (fun note => new_note_ <- deepcopy note ;;
                               c <- randint low high ;;
                               set_color new_note_ (Palette c) ;;;
                               ret new_note_) ns ;;
      ret (VList lst)
  | ColorWheel max_radius shade _length =>
      if _length =? 0 then raise ZeroDivisionError
      else
        lst <- mapM (fun p =>
                 if decide (max_radius = Q2Qc 0) then raise ZeroDivisionError
                 else match shade tick (fst p) (snd p) with
                      | Ok (r, g, b) => new_note p (RGB r g b)
                      | Raise e => raise e
                      end)
                    (grid (-1) 9 (-1) 9) ;;
        ret (VList lst)
  end.

(** ** The render engine ([Launchpad]) *)

(** What is sent to the MIDI port.  The checks that [mido.Message] makes on
    its arguments belong to the library and are not part of this model. *)
Inductive Message : Type :=
| note_on (note velocity : Z)
| sysex (data : list Z).

#[global] Instance Message_eq_dec : EqDecision Message.
Proof. solve_decision. Defined.

(** The attributes of a [Launchpad]; [port] is the log of sent messages. *)
Record Launchpad : Type := MkLaunchpad {
  buf : list Color;
  back_buf : list Color;
  port : list Message
}.

(** [Launchpad.__init__]. *)
Definition Launchpad_init : Launchpad :=
  MkLaunchpad (replicate 100 (Palette 0)) (replicate 100 (Palette 0)) [].

(** [reset_buf], lines 206-209: swap the two lists, zero the new [buf]. *)
Definition reset_buf (lp : Launchpad) : Launchpad :=
  MkLaunchpad (replicate (List.length (back_buf lp)) (Palette 0))
              (buf lp) (port lp).

(** The body of the loop of [draw_effect], lines 213-216, on one note. *)
Definition plot (o : NoteObj) (b : list Color) : list Color :=
  let '(x, y) := pos o in
  let midi_note := y * 10 + x + 11 in
  if (midi_note >=? 0) && (midi_note <? Z.of_nat (List.length b))
  then <[Z.to_nat midi_note := color o]> b
  else b.

Fixpoint draw_notes (ns : list loc) (b : list Color) : M (list Color) :=
  match ns with
  | [] => ret b
  | n :: rest => o <- get_note n ;; draw_notes rest (plot o b)
  end.

(** [draw_effect], lines 211-216. *)
Definition draw_effect (effect : Effect) (tick : Z) (lp : Launchpad)
  : M Launchpad :=
  v <- notes effect tick ;;
  ns <- iter_val v ;;
  b <- draw_notes ns (buf lp) ;;
  ret (MkLaunchpad b (back_buf lp) (port lp)).

(** [rgb_message], lines 218-237. *)
Definition rgb_message (midi_note : Z) (r g b : Qc) : Message :=
  let prefix := [0; 32; 41; 2; 16; 11] in
  let data := [midi_note; brightness_of_compon r; brightness_of_compon g;
               brightness_of_compon b] in
  sysex (prefix ++ data).

(** The message built in lines 242-246 for a changed cell, as a value:
    the check that [mido.Message] makes of its data bytes (a [ValueError]
    for a palette velocity outside [[0, 127]]) is not part of it. *)
Definition update_event (midi_note : Z) (c : Color) : Message :=
  match c with
  | RGB r g b => rgb_message midi_note r g b
  | Palette velocity => note_on midi_note velocity
  end.

(** The loop of [write_buf] over [enumerate(zip(buf, back_buf))], counting
    from [midi_note]. *)
Fixpoint diff_events (midi_note : Z) (cells : list (Color * Color))
  : list Message :=
  match cells with
  | [] => []
  | (c, back_color) :: rest =>
      (if decide (c = back_color) then [] else [update_event midi_note c])
      ++ diff_events (midi_note + 1) rest
  end.

(** [write_buf], lines 239-248. *)
Definition write_buf (lp : Launchpad) : Launchpad :=
  MkLaunchpad (buf lp) (back_buf lp)
              (port lp ++ diff_events 0 (zip (buf lp) (back_buf lp))).

(** One iteration of the loop of [play], lines 254-256.  The pacing of
    lines 258-260 is left out: it changes neither the buffers nor the
    messages, and what [time.sleep] does with an extreme period is not
    modelled. *)
Definition play_tick (effect : Effect) (i : Z) (lp : Launchpad) : M Launchpad :=
  lp' <- draw_effect effect i (reset_buf lp) ;;
  ret (write_buf lp').

Fixpoint play_ticks (effect : Effect) (n : nat) (i : Z) (lp : Launchpad)
  : M Launchpad :=
  match n with
  | O => ret lp
  | S n' => lp' <- play_tick effect i lp ;; play_ticks effect n' (i + 1) lp'
  end.

(** [play], lines 205-265: [60 / bpm], the ticks [range(effect.length())],
    then the final reset and write. *)
Definition play (effect : Effect) (bpm : Qc) (lp : Launchpad) : M Launchpad :=
  if decide (bpm = Q2Qc 0) then raise ZeroDivisionError
  else
    lp' <- play_ticks effect (Z.to_nat (length effect)) 0 lp ;;
    ret (write_buf (reset_buf lp')).

(** The linear index of a position, and the addressable range of the
    specification. *)
Definition midi_note_of (p : Z * Z) : Z := snd p * 10 + fst p + 11.

Definition in_grid (p : Z * Z) : Prop :=
  -1 <= fst p <= 8 /\ -1 <= snd p <= 8.

(** The cell a message addresses. *)
Definition cell_of (m : Message) : Z :=
  match m with
  | note_on note _ => note
  | sysex data => nth 6 data (-1)
  end.

Definition empty_state (rnd : nat -> Z) : state := MkState [] [] rnd 0.

(** ** Definitions used to state the properties *)


(** [uses_cell c e]: some [Random] object inside [e] keeps its
    [current_effect] in cell [c]. *)
Fixpoint uses_cell (c : loc) (e : Effect) : bool :=
  match e with
  | EffectBase | Note _ | Rectangle _ | ColorWheel _ _ _ => false
  | Translate child _ | Loop child _ | PaddedEffect child _ _
  | RandomColor child _ _ => uses_cell c child
  | Sequential effects | Concurrent effects => existsb (uses_cell c) effects
  | Random effects cell => bool_decide (c = cell) || existsb (uses_cell c) effects
  end.

(** [frame keep s s']: going from [s] to [s'] no existing [Note] object was
    changed (new ones may have been added), no selection cell was added or
    removed, the cells in [keep] hold what they held, and the generator
    produces the same sequence. *)
Definition frame (keep : loc -> Prop) (s s' : state) : Prop :=
  heap s `prefix_of` heap s'
  /\ List.length (sel s') = List.length (sel s)
  /\ entropy s' = entropy s
  /\ forall c, keep c -> sel s' !! c = sel s !! c.

Definition respects {A} (keep : loc -> Prop) (m : M A) : Prop :=
  forall s a s', m s = Ok (a, s') -> frame keep s s'.

(** Concrete states and effects on which the properties are exercised:
    [demo_state] holds the four notes of
    [Rectangle((0, 0), (1, 1), 5)] and one selection cell holding index 0;
    its generator always produces 0. *)
Definition demo_state : state :=
  MkState [MkNote (0, 0) (Palette 5); MkNote (0, 1) (Palette 5);
           MkNote (1, 0) (Palette 5); MkNote (1, 1) (Palette 5)]
          [Some 0] (fun _ => 0) 0.

Definition demo_rectangle : Effect := Rectangle [0; 1; 2; 3]%nat.

Definition demo_sequence : Effect := Sequential [Note 0%nat; Note 1%nat].

(** A note moved by an offset, as [Translate.notes] builds it. *)
Definition shift (offset : Z * Z) (o : NoteObj) : NoteObj :=
  MkNote (fst (pos o) + fst offset, snd (pos o) + snd offset) (color o).

(** [deref s ns objs]: in state [s] the references [ns] point, in order, to
    the objects [objs]. *)
Definition deref (s : state) (ns : list loc) (objs : list NoteObj) : Prop :=
  Forall2 (fun n o => heap s !! n = Some o) ns objs.

(** [live bound e]: every [Note] object that [e] refers to (a [Note] itself,
    the notes cached by a [Rectangle], a pad value) is one of the first
    [bound] objects of the store. *)
Fixpoint live (bound : nat) (e : Effect) : bool :=
  match e with
  | EffectBase | ColorWheel _ _ _ => true
  | Note self => bool_decide (self < bound)%nat
  | Rectangle ns => forallb (fun l => bool_decide (l < bound)%nat) ns
  | Translate child _ | Loop child _ | RandomColor child _ _ => live bound child
  | PaddedEffect child _ pad =>
      live bound child
      && match pad with
         | VList ns => forallb (fun l => bool_decide (l < bound)%nat) ns
         | VNone => true
         end
  | Sequential effects | Concurrent effects | Random effects _ =>
      forallb (live bound) effects
  end.

(** [steady e]: [e] contains no [Random] and no [ColorWheel] (whose float
    arithmetic can raise); its loops run a non-negative number of times; the
    children of every [Concurrent] have one and the same duration (as
    [pad_effects] leaves them); pad values are lists and padded durations
    non-negative; every [RandomColor] has [low <= high]. *)
Fixpoint steady (e : Effect) : bool :=
  match e with
  | EffectBase | Note _ | Rectangle _ => true
  | Translate child _ => steady child
  | Sequential effects => forallb steady effects
  | Concurrent effects =>
      forallb steady effects
      && forallb (fun e' => length e' =? length (Concurrent effects)) effects
  | Loop child n => steady child && (0 <=? n)
  | PaddedEffect child len pad =>
      steady child && (0 <=? len)
      && match pad with VList _ => true | VNone => false end
  | Random _ _ | ColorWheel _ _ _ => false
  | RandomColor child low high => steady child && (low <=? high)
  end.

(** [val_live v s]: every reference of the returned value [v] points to an
    object of the store of [s]. *)
Definition val_live (v : pyval) (s : state) : Prop :=
  match v with
  | VList ns => Forall (fun n => (n < List.length (heap s))%nat) ns
  | VNone => True
  end.

(** [keeps_live bound m]: started in a store of at least [bound] objects,
    the computation [m] returns only references to objects of the store it
    leaves. *)
Definition keeps_live (bound : nat) (m : M pyval) : Prop :=
  forall s v s',
    (bound <= List.length (heap s))%nat -> m s = Ok (v, s') -> val_live v s'.

(** [deterministic e]: [e] contains neither a [Random] nor a
    [RandomColor]. *)
Fixpoint deterministic (e : Effect) : bool :=
  match e with
  | EffectBase | Note _ | Rectangle _ | ColorWheel _ _ _ => true
  | Translate child _ | Loop child _ | PaddedEffect child _ _ =>
      deterministic child
  | Sequential effects | Concurrent effects => forallb deterministic effects
  | Random _ _ | RandomColor _ _ _ => false
  end.

(** [quiet m]: a successful run of [m] leaves the selection cells and the
    generator as they were. *)
Definition quiet {A} (m : M A) : Prop :=
  forall s a s', m s = Ok (a, s') -> sel s' = sel s /\ draws s' = draws s.

(** [agree bound s t]: the stores of [s] and [t] hold at least [bound]
    objects and the same first [bound] objects. *)
Definition agree (bound : nat) (s t : state) : Prop :=
  (bound <= List.length (heap s))%nat /\ (bound <= List.length (heap t))%nat
  /\ take bound (heap s) = take bound (heap t).

(** [same_render bound m]: two successful runs of [m] from states that
    agree on the first [bound] objects return notes with the same positions
    and colours, in the same order. *)
Definition same_render (bound : nat) (m : M pyval) : Prop :=
  forall s t ns s' nt t',
    agree bound s t ->
    m s = Ok (VList ns, s') -> m t = Ok (VList nt, t') ->
    exists objs, deref s' ns objs /\ deref t' nt objs.

(** * Properties *)

(** ** The monad *)

Lemma bind_Ok {A B} (m : M A) (k : A -> M B) s b s' :
  bind m k s = Ok (b, s') ->
  exists a s1, m s = Ok (a, s1) /\ k a s1 = Ok (b, s').
Proof.
  unfold bind. destruct (m s) as [[a s1]|e]; [|discriminate].
  intros H. by exists a, s1.
Qed.

Lemma bind_eq {A B} (m : M A) (k : A -> M B) s a s1 :
  m s = Ok (a, s1) -> bind m k s = k a s1.
Proof. unfold bind. by intros ->. Qed.

Lemma bind_Raise {A B} (m : M A) (k : A -> M B) s e :
  m s = Raise e -> bind m k s = Raise e.
Proof. unfold bind. by intros ->. Qed.

(** ** Brightness scaling *)

Lemma brightness_of_compon_range (c : Qc) :
  0 <= brightness_of_compon c <= MAX_BRIGHTNESS.
Proof.
  unfold brightness_of_compon, MAX_BRIGHTNESS.
  repeat case_match; lia.
Qed.








(** The rounding of the product itself shows: for the float next below
    [1/63] the exact product is below 1, the binary64 product is 1.0, and
    the code returns 1.  An infinite component, or one whose product with 63
    overflows, raises instead of clamping. *)
Lemma brightness_of_compon_binary64_examples :
  Binary64.brightness_of_compon (Binary64.CFloat Binary64.below_one_63rd)
  = Ok 1
  /\ (exists q, Binary64.value Binary64.below_one_63rd = Some q
                /\ (q * Q2Qc 63 < Q2Qc 1)%Qc)
  /\ Binary64.brightness_of_compon (Binary64.CFloat PrimFloat.infinity)
     = Raise OverflowError
  /\ Binary64.brightness_of_compon (Binary64.CFloat Binary64.huge)
     = Raise OverflowError
  /\ Binary64.brightness_of_compon (Binary64.CFloat PrimFloat.nan)
     = Raise ValueError.
Proof.
  split; [by vm_compute|]. split; [|by vm_compute].
  eexists. split; [reflexivity|]. by vm_compute.
Qed.

(** ** Store operations *)

Lemma get_sel_eq cell s c :
  sel s !! cell = Some c -> get_sel cell s = Ok (c, s).
Proof. unfold get_sel. by intros ->. Qed.

Lemma set_sel_eq cell s c :
  (cell < List.length (sel s))%nat ->
  set_sel cell c s
  = Ok (tt, MkState (heap s) (<[cell := Some c]> (sel s)) (entropy s) (draws s)).
Proof. unfold set_sel. intros H. by rewrite decide_True. Qed.

Lemma randint_eq lo hi s :
  lo <= hi ->
  randint lo hi s
  = Ok (lo + entropy s (draws s) mod (hi - lo + 1),
        MkState (heap s) (sel s) (entropy s) (S (draws s))).
Proof.
  unfold randint. intros H.
  destruct (Z.ltb_spec hi lo); [lia|done].
Qed.

Lemma randint_empty lo hi s : hi < lo -> randint lo hi s = Raise ValueError.
Proof.
  unfold randint. intros H.
  destruct (Z.ltb_spec hi lo); [done|lia].
Qed.

Lemma randint_range lo hi s v s' :
  randint lo hi s = Ok (v, s') -> lo <= v <= hi.
Proof.
  unfold randint. destruct (Z.ltb_spec hi lo); [discriminate|].
  intros [= <- _].
  pose proof (Z.mod_pos_bound (entropy s (draws s)) (hi - lo + 1)). lia.
Qed.

(** ** The selection of [Random] *)

Lemma Random_select_first len cell s :
  sel s !! cell = Some None -> 1 <= len ->
  Random_select len cell s
  = Ok (tt, MkState (heap s)
                    (<[cell := Some (entropy s (draws s) mod len)]> (sel s))
                    (entropy s) (S (draws s))).
Proof.
  intros Hc Hlen. unfold Random_select.
  rewrite (bind_eq _ _ _ _ _ (get_sel_eq _ _ _ Hc)).
  rewrite (bind_eq _ _ _ _ _ (randint_eq 0 (len - 1) s ltac:(lia))).
  rewrite set_sel_eq by (simpl; by eapply lookup_lt_Some).
  simpl. by replace (len - 1 - 0 + 1) with len by lia.
Qed.

Lemma Random_select_again len cell s current :
  sel s !! cell = Some (Some current) -> 2 <= len ->
  Random_select len cell s
  = Ok (tt, MkState (heap s)
              (<[cell := Some (skip_current
                                 (entropy s (draws s) mod (len - 1)) current)]>
                 (sel s))
              (entropy s) (S (draws s))).
Proof.
  intros Hc Hlen. unfold Random_select.
  rewrite (bind_eq _ _ _ _ _ (get_sel_eq _ _ _ Hc)).
  rewrite (bind_eq _ _ _ _ _ (randint_eq 0 (len - 2) s ltac:(lia))).
  rewrite set_sel_eq by (simpl; by eapply lookup_lt_Some).
  simpl. by replace (len - 2 - 0 + 1) with (len - 1) by lia.
Qed.

Lemma Random_select_single cell s current :
  sel s !! cell = Some (Some current) ->
  Random_select 1 cell s = Raise ValueError.
Proof.
  intros Hc. unfold Random_select.
  rewrite (bind_eq _ _ _ _ _ (get_sel_eq _ _ _ Hc)).
  apply bind_Raise, randint_empty. lia.
Qed.

Lemma Random_notes_single_reselect e cell s current :
  sel s !! cell = Some (Some current) ->
  notes (Random [e] cell) 0 s = Raise ValueError.
Proof.
  intros Hc. simpl. apply bind_Raise. by eapply Random_select_single.
Qed.

Lemma Random_notes_single_first l cell s :
  sel s !! cell = Some None ->
  exists s', notes (Random [Note l] cell) 0 s = Ok (VList [l], s')
             /\ sel s' !! cell = Some (Some 0).
Proof.
  intros Hc.
  pose proof (lookup_lt_Some _ _ _ Hc) as Hlt.
  eexists. simpl.
  rewrite (bind_eq _ _ _ _ _ (Random_select_first 1 cell s Hc ltac:(lia))).
  rewrite Z.mod_1_r.
  erewrite bind_eq; last first.
  { apply get_sel_eq. simpl. by apply list_lookup_insert_eq. }
  simpl. split; [reflexivity|]. simpl. by apply list_lookup_insert_eq.
Qed.

(** C4: a [Random] over a single child raises [ValueError] the second time
    it is rendered at tick 0 ([random.randint(0, -1)]), for every state of
    the generator. *)
Theorem Random_single_child_second_tick0_raises (p : Z * Z) (c : Color)
    (s : state) :
  (n <- Note_init p c ;; e <- Random_init [n] ;; notes e 0 ;;; notes e 0) s
  = Raise ValueError.
Proof.
  unfold Note_init, Random_init, new_note, new_sel, bind at 1 2 3 4, ret.
  cbn [pad_effects py_max_key fold_left length map Z.ltb Z.compare Pos.compare
       Pos.compare_cont heap sel].
  set (l := List.length (heap s)). set (cell := List.length (sel s)).
  match goal with |- bind _ _ ?s0 = _ => set (s1 := s0) end.
  assert (Hc : sel s1 !! cell = Some None).
  { subst s1 cell. simpl. by rewrite list_lookup_middle. }
  destruct (Random_notes_single_first l cell s1 Hc) as (s2 & Hn & Hc2).
  rewrite (bind_eq _ _ _ _ _ Hn).
  by eapply Random_notes_single_reselect.
Qed.

(** ** Writing into the buffer *)

Lemma plot_dropped o b :
  midi_note_of (pos o) < 0 \/ Z.of_nat (List.length b) <= midi_note_of (pos o) ->
  plot o b = b.
Proof.
  unfold plot, midi_note_of. destruct (pos o) as [x y]. simpl.
  intros H.
  destruct (Z.geb_spec (y * 10 + x + 11) 0),
           (Z.ltb_spec (y * 10 + x + 11) (Z.of_nat (List.length b)));
    simpl; try reflexivity; lia.
Qed.

Lemma plot_written o b :
  0 <= midi_note_of (pos o) < Z.of_nat (List.length b) ->
  plot o b = <[Z.to_nat (midi_note_of (pos o)) := color o]> b.
Proof.
  unfold plot, midi_note_of. destruct (pos o) as [x y]. simpl.
  intros H.
  destruct (Z.geb_spec (y * 10 + x + 11) 0),
           (Z.ltb_spec (y * 10 + x + 11) (Z.of_nat (List.length b)));
    simpl; try reflexivity; lia.
Qed.

(** C1: the position (9, 0) is outside the grid, yet its linear index
    [0 * 10 + 9 + 11 = 20] passes the bounds test of [draw_effect], and the
    write lands in the cell of the in-grid position (-1, 1). *)
Theorem draw_effect_column_overflow_overwrites (rnd : nat -> Z) :
  ~ in_grid (9, 0) /\ in_grid (-1, 1) /\ midi_note_of (-1, 1) = 20
  /\ buf (reset_buf Launchpad_init) !! 20%nat = Some (Palette 0)
  /\ exists lp s,
       (e <- Note_init (9, 0) (Palette 5) ;;
        draw_effect e 0 (reset_buf Launchpad_init)) (empty_state rnd)
       = Ok (lp, s)
       /\ buf lp !! 20%nat = Some (Palette 5).
Proof.
  split; [unfold in_grid; simpl; lia|].
  split; [unfold in_grid; simpl; lia|].
  split; [reflexivity|]. split; [reflexivity|].
  eexists _, _. split; [vm_compute; reflexivity|reflexivity].
Qed.

(** ** [Sequential] *)

Lemma fold_left_length_acc effects acc :
  fold_left (fun sum eff => sum + length eff) effects acc
  = acc + fold_left (fun sum eff => sum + length eff) effects 0.
Proof.
  revert acc. induction effects as [|e effects IH]; intros acc; simpl.
  - lia.
  - rewrite (IH (acc + length e)), (IH (0 + length e)). lia.
Qed.

Lemma Sequential_length_cons e effects :
  length (Sequential (e :: effects)) = length e + length (Sequential effects).
Proof. simpl. apply fold_left_length_acc. Qed.

Lemma Sequential_length_nonneg effects :
  Forall (fun e => 0 <= length e) effects -> 0 <= length (Sequential effects).
Proof.
  induction 1 as [|e effects He Hpos IH]; [done|].
  rewrite Sequential_length_cons. lia.
Qed.

Lemma Sequential_notes_past_end effects tick s :
  Forall (fun e => 0 <= length e) effects ->
  length (Sequential effects) <= tick ->
  notes (Sequential effects) tick s = Ok (VNone, s).
Proof.
  intros Hpos. revert tick. induction Hpos as [|e effects He Hpos IH];
    intros tick Htick.
  - reflexivity.
  - rewrite Sequential_length_cons in Htick.
    change (notes (Sequential (e :: effects)) tick s)
      with ((if tick >=? length e
             then notes (Sequential effects) (tick - length e)
             else notes e tick) s).
    pose proof (Sequential_length_nonneg effects Hpos).
    destruct (Z.geb_spec tick (length e)); [|lia].
    apply IH. lia.
Qed.

(** C3: past the end of its children [Sequential.notes] falls out of its
    loop and returns [None], not an empty list; a caller that iterates over
    the result raises [TypeError]. *)
Theorem Sequential_notes_past_end_returns_None (l : loc) (tick : Z)
    (s : state) :
  notes (Sequential []) tick s = Ok (VNone, s)
  /\ length (Sequential [Note l]) = 1
  /\ notes (Sequential [Note l]) 1 s = Ok (VNone, s)
  /\ VNone <> VList []
  /\ notes (Translate (Sequential [Note l]) (0, 0)) 1 s = Raise TypeError.
Proof. repeat split; done. Qed.

(** C6: the duration of a two-element sequence is the sum of the two
    durations; a tick inside the first child's window is rendered by the
    first child, a tick inside the second child's window by the second child
    at the rebased tick. *)
Theorem Sequential_two (a b : Effect) :
  length (Sequential [a; b]) = length a + length b
  /\ (forall tick s, tick < length a ->
        notes (Sequential [a; b]) tick s = notes a tick s)
  /\ (forall tick s, length a <= tick < length a + length b ->
        notes (Sequential [a; b]) tick s = notes b (tick - length a) s).
Proof.
  split; [simpl; lia|]. split; intros tick s H.
  - change (notes (Sequential [a; b]) tick s)
      with ((if tick >=? length a
             then notes (Sequential [b]) (tick - length a)
             else notes a tick) s).
    destruct (Z.geb_spec tick (length a)); [lia|done].
  - change (notes (Sequential [a; b]) tick s)
      with ((if tick >=? length a
             then (if tick - length a >=? length b
                   then notes (Sequential []) (tick - length a - length b)
                   else notes b (tick - length a))
             else notes a tick) s).
    destruct (Z.geb_spec tick (length a)); [|lia].
    destruct (Z.geb_spec (tick - length a) (length b)); [lia|done].
Qed.

(** ** [Loop] *)

(** C9: the duration of a loop is the child's duration times the count, and
    at every tick a loop renders what the child renders at
    [tick % child.length()]: the tick reduced modulo the child's duration
    (which lies inside the child's window when that duration is positive),
    and [ZeroDivisionError], raised by the reduction itself, when the child's
    duration is 0. *)
Theorem Loop_length_notes (a : Effect) (n : Z) :
  length (Loop a n) = length a * n
  /\ (forall tick s,
        notes (Loop a n) tick s = (m <- py_mod tick (length a) ;; notes a m) s)
  /\ (forall tick s, length a <> 0 ->
        notes (Loop a n) tick s = notes a (tick mod length a) s)
  /\ (forall tick, 0 < length a -> 0 <= tick mod length a < length a)
  /\ (forall tick s, length a = 0 ->
        notes (Loop a n) tick s = Raise ZeroDivisionError).
Proof.
  split; [reflexivity|]. split; [reflexivity|].
  split; [|split].
  - intros tick s H. cbn [notes]. unfold py_mod, bind.
    destruct (Z.eqb_spec (length a) 0); [lia|done].
  - intros tick H. by apply Z.mod_pos_bound.
  - intros tick s H. cbn [notes]. unfold py_mod, bind. by rewrite H.
Qed.

(** ** Frame properties of rendering *)

Lemma frame_refl keep s : frame keep s s.
Proof. by repeat split. Qed.

Lemma frame_trans keep s1 s2 s3 :
  frame keep s1 s2 -> frame keep s2 s3 -> frame keep s1 s3.
Proof.
  intros (Hh1 & Hl1 & He1 & Hk1) (Hh2 & Hl2 & He2 & Hk2).
  split; [by etrans|]. split; [congruence|]. split; [congruence|].
  intros c Hc. rewrite Hk2, Hk1; done.
Qed.

Lemma frame_weaken (keep keep' : loc -> Prop) s s' :
  (forall c, keep' c -> keep c) -> frame keep s s' -> frame keep' s s'.
Proof. intros Hsub (Hh & Hl & He & Hk). repeat split; auto. Qed.

Lemma respects_ret {A} keep (a : A) : respects keep (ret a).
Proof. intros s a' s' [= _ <-]. apply frame_refl. Qed.

Lemma respects_raise {A} keep e : respects keep (@raise A e).
Proof. intros s a s' [=]. Qed.

Lemma respects_bind {A B} keep (m : M A) (k : A -> M B) :
  respects keep m -> (forall a, respects keep (k a)) ->
  respects keep (bind m k).
Proof.
  intros Hm Hk s b s' Hrun.
  apply bind_Ok in Hrun as (a & s1 & H1 & H2).
  eapply frame_trans; [by eapply Hm | by eapply Hk].
Qed.

Lemma respects_new_note keep p c : respects keep (new_note p c).
Proof.
  intros s l s' [= _ <-]. repeat split; simpl; try done.
  by apply prefix_app_r.
Qed.

Lemma respects_get_note keep l : respects keep (get_note l).
Proof.
  intros s o s'. unfold get_note. destruct (heap s !! l); [|done].
  intros [= _ <-]. apply frame_refl.
Qed.

Lemma respects_deepcopy keep l : respects keep (deepcopy l).
Proof.
  apply respects_bind; [apply respects_get_note|].
  intros o. apply respects_new_note.
Qed.

Lemma respects_get_sel keep l : respects keep (get_sel l).
Proof.
  intros s o s'. unfold get_sel. destruct (sel s !! l); [|done].
  intros [= _ <-]. apply frame_refl.
Qed.

Lemma respects_set_sel (keep : loc -> Prop) cell c :
  ~ keep cell -> respects keep (set_sel cell c).
Proof.
  intros Hcell s [] s'. unfold set_sel. case_decide; [|done].
  intros [= <-]. repeat split; simpl; try done.
  - by rewrite length_insert.
  - intros c' Hc'. apply list_lookup_insert_ne. by intros ->.
Qed.

Lemma respects_randint keep lo hi : respects keep (randint lo hi).
Proof.
  intros s v s'. unfold randint. case_match; [done|].
  intros [= _ <-]. by repeat split.
Qed.

Lemma respects_iter_val keep v : respects keep (iter_val v).
Proof. destruct v; [apply respects_ret|apply respects_raise]. Qed.

Lemma respects_mapM {A B} keep (f : A -> M B) (l : list A) :
  (forall a, respects keep (f a)) -> respects keep (mapM f l).
Proof.
  intros Hf. induction l as [|a l IH]; simpl.
  - apply respects_ret.
  - apply respects_bind; [apply Hf|]. intros b.
    apply respects_bind; [apply IH|]. intros bs. apply respects_ret.
Qed.

Lemma respects_Random_select (keep : loc -> Prop) len cell :
  ~ keep cell -> respects keep (Random_select len cell).
Proof.
  intros Hcell. apply respects_bind; [apply respects_get_sel|].
  intros [current|];
    (apply respects_bind; [apply respects_randint|]);
    intros c; by apply respects_set_sel.
Qed.

(** What the body of the loop of [RandomColor.notes] does to the store:
    one object is added, the copy, which carries the new colour. *)
Lemma recolor_step note low high s l s' :
  (new_note_ <- deepcopy note ;;
   c <- randint low high ;;
   set_color new_note_ (Palette c) ;;;
   ret new_note_) s = Ok (l, s') ->
  exists o c,
    heap s !! note = Some o /\ low <= c <= high
    /\ l = List.length (heap s)
    /\ heap s' = heap s ++ [MkNote (pos o) (Palette c)]
    /\ sel s' = sel s /\ entropy s' = entropy s.
Proof.
  intros Hrun.
  apply bind_Ok in Hrun as (l1 & s1 & Hcopy & Hrun).
  apply bind_Ok in Hcopy as (o & s0 & Hget & Hnew).
  unfold get_note in Hget. destruct (heap s !! note) as [o'|] eqn:Ho; [|done].
  injection Hget as <- <-. injection Hnew as <- <-.
  apply bind_Ok in Hrun as (c & s2 & Hrand & Hrun).
  pose proof (randint_range _ _ _ _ _ Hrand) as Hc.
  unfold randint in Hrand. case_match; [done|]. injection Hrand as <- <-.
  apply bind_Ok in Hrun as ([] & s3 & Hset & Hret).
  injection Hret as <- <-.
  unfold set_color in Hset. simpl in Hset.
  rewrite list_lookup_middle in Hset by done.
  injection Hset as <-. simpl.
  exists o', (low + entropy s (draws s) mod (high - low + 1)).
  repeat split; try done; try lia.
  rewrite insert_app_r_alt by done. by rewrite Nat.sub_diag.
Qed.

Lemma respects_recolor keep note low high :
  respects keep (new_note_ <- deepcopy note ;;
                 c <- randint low high ;;
                 set_color new_note_ (Palette c) ;;;
                 ret new_note_).
Proof.
  intros s l s' Hrun.
  apply recolor_step in Hrun as (o & c & _ & _ & _ & Hh & Hs & He).
  repeat split.
  - rewrite Hh. by apply prefix_app_r.
  - by rewrite Hs.
  - done.
  - intros c' _. by rewrite Hs.
Qed.

Lemma existsb_false_Forall {A} (f : A -> bool) (l : list A) :
  existsb f l = false -> Forall (fun x => f x = false) l.
Proof.
  induction l as [|x l IH]; simpl; [by constructor|].
  intros [Hx Hl]%orb_false_elim. constructor; auto.
Qed.

Lemma respects_Sequential_notes keep rec effects :
  Forall (fun e => forall tick, respects keep (rec e tick)) effects ->
  forall tick, respects keep (Sequential_notes rec effects tick).
Proof.
  induction 1 as [|e effects He Hall IH]; intros tick; simpl.
  - apply respects_ret.
  - case_match; [apply IH|apply He].
Qed.

Lemma respects_Concurrent_notes keep rec tick effects :
  Forall (fun e => respects keep (rec e tick)) effects ->
  forall lst, respects keep (Concurrent_notes rec tick effects lst).
Proof.
  induction 1 as [|e effects He Hall IH]; intros lst; simpl.
  - apply respects_ret.
  - apply respects_bind; [apply He|]. intros v.
    apply respects_bind; [apply respects_iter_val|]. intros ns. apply IH.
Qed.

Lemma respects_at_index {A} keep (f : Effect -> M A) effects :
  Forall (fun e => respects keep (f e)) effects ->
  forall i, respects keep (at_index f effects i).
Proof.
  induction 1 as [|e effects He Hall IH]; intros i; simpl.
  - apply respects_raise.
  - destruct i; [apply He|apply IH].
Qed.

(** Rendering changes no existing [Note] object and no selection cell
    other than those of the [Random] objects inside the effect. *)
Lemma notes_respects (e : Effect) :
  forall (keep : loc -> Prop),
    (forall c, keep c -> uses_cell c e = false) ->
    forall tick, respects keep (notes e tick).
Proof.
  induction e as [| self | ns | child offset IH | effects IH | effects IH
                 | child n IH | effect len pad IH | effects cell IH
                 | child low high IH | radius shade len] using Effect_ind;
    intros keep Hkeep tick; cbn [notes].
  - apply respects_ret.
  - apply respects_ret.
  - apply respects_ret.
  - apply respects_bind; [by apply IH|]. intros v.
    apply respects_bind; [apply respects_iter_val|]. intros ns.
    apply respects_bind; [|intros; apply respects_ret].
    apply respects_mapM. intros n.
    apply respects_bind; [apply respects_get_note|].
    intros o. apply respects_new_note.
  - apply respects_Sequential_notes.
    apply Forall_forall. intros e He tick'.
    rewrite Forall_forall in IH. apply IH; [done|].
    intros c Hc. specialize (Hkeep c Hc). simpl in Hkeep.
    apply existsb_false_Forall in Hkeep. rewrite Forall_forall in Hkeep. auto.
  - apply respects_Concurrent_notes.
    apply Forall_forall. intros e He.
    rewrite Forall_forall in IH. apply IH; [done|].
    intros c Hc. specialize (Hkeep c Hc). simpl in Hkeep.
    apply existsb_false_Forall in Hkeep. rewrite Forall_forall in Hkeep. auto.
  - apply respects_bind; [|intros m; by apply IH].
    unfold py_mod. case_match; [apply respects_raise|apply respects_ret].
  - case_match; [by apply IH|apply respects_ret].
  - case_match; [apply respects_ret|].
    assert (Hcell : ~ keep cell).
    { intros Hc. specialize (Hkeep cell Hc). simpl in Hkeep.
      apply orb_false_elim in Hkeep as [Hk _].
      by rewrite bool_decide_eq_false in Hk. }
    apply respects_bind.
    { case_match; [by apply respects_Random_select|apply respects_ret]. }
    intros _. apply respects_bind; [apply respects_get_sel|].
    intros [i|]; [|apply respects_raise].
    apply respects_at_index. apply Forall_forall. intros e He.
    case_match; [apply respects_ret|].
    rewrite Forall_forall in IH. apply IH; [done|].
    intros c Hc. specialize (Hkeep c Hc). simpl in Hkeep.
    apply orb_false_elim in Hkeep as [_ Hk].
    apply existsb_false_Forall in Hk. rewrite Forall_forall in Hk. auto.
  - apply respects_bind; [by apply IH|]. intros v.
    apply respects_bind; [apply respects_iter_val|]. intros ns.
    apply respects_bind; [|intros; apply respects_ret].
    apply respects_mapM. intros n. apply respects_recolor.
  - case_match; [apply respects_raise|].
    apply respects_bind; [|intros; apply respects_ret].
    apply respects_mapM. intros p.
    case_decide; [apply respects_raise|].
    destruct (shade tick p.1 p.2) as [[[r g] b]|x];
      [apply respects_new_note|apply respects_raise].
Qed.

(** ** [RandomColor] *)

Lemma recolor_all low high ns : forall s lst s',
  mapM (fun note => new_note_ <- deepcopy note ;;
                    c <- randint low high ;;
                    set_color new_note_ (Palette c) ;;;
                    ret new_note_) ns s = Ok (lst, s') ->
  heap s `prefix_of` heap s'
  /\ Forall (fun l => (List.length (heap s) <= l < List.length (heap s'))%nat) lst
  /\ Forall2 (fun n l => exists o c,
                heap s' !! n = Some o
                /\ heap s' !! l = Some (MkNote (pos o) (Palette c))
                /\ low <= c <= high) ns lst.
Proof.
  induction ns as [|n ns IH]; intros s lst s' Hrun.
  - injection Hrun as <- <-. split; [done|]. split; constructor.
  - cbn [mapM] in Hrun.
    apply bind_Ok in Hrun as (l & s1 & Hstep & Hrun).
    apply bind_Ok in Hrun as (lst' & s2 & Hrest & Hret).
    injection Hret as <- <-.
    apply recolor_step in Hstep as (o & c & Ho & Hc & -> & Hh & _ & _).
    apply IH in Hrest as (Hpre & Hfresh & Hcopies).
    assert (Hpre0 : heap s `prefix_of` heap s2).
    { etrans; [|exact Hpre]. rewrite Hh. by apply prefix_app_r. }
    pose proof (prefix_length _ _ Hpre) as Hlen.
    rewrite Hh, length_app in Hlen. simpl in Hlen.
    split; [done|]. split.
    + constructor; [lia|].
      eapply Forall_impl; [exact Hfresh|]. simpl. intros l.
      rewrite Hh, length_app. simpl. lia.
    + constructor; [|done].
      exists o, c. split; [|split; [|done]].
      * by eapply prefix_lookup_Some.
      * eapply prefix_lookup_Some; [|exact Hpre].
        rewrite Hh. by apply list_lookup_middle.
Qed.

(** C10: rendering a [RandomColor] leaves every [Note] object that existed
    before the call, and every one that the child's own render returned,
    exactly as it was: the emitted notes are new objects, copies of the
    child's notes at the same positions with a palette colour drawn from
    [[low, high]].  In particular the notes cached by a [Rectangle] child are
    returned unchanged by a later render of the child. *)
Theorem RandomColor_notes_copies (child : Effect) (low high tick : Z)
    (s : state) (v : pyval) (s' : state) :
  notes (RandomColor child low high) tick s = Ok (v, s') ->
  exists ns s1 lst,
    notes child tick s = Ok (VList ns, s1) /\ v = VList lst
    /\ heap s `prefix_of` heap s1
    /\ heap s1 `prefix_of` heap s'
    /\ Forall (fun l => (List.length (heap s1) <= l < List.length (heap s'))%nat)
              lst
    /\ Forall2 (fun n l => exists o c,
                  heap s' !! n = Some o
                  /\ heap s' !! l = Some (MkNote (pos o) (Palette c))
                  /\ low <= c <= high) ns lst
    /\ (forall cached, child = Rectangle cached ->
          notes child tick s' = Ok (VList cached, s')
          /\ forall n o, n ∈ cached -> heap s !! n = Some o ->
                         heap s' !! n = Some o).
Proof.
  intros Hrun. cbn [notes] in Hrun.
  apply bind_Ok in Hrun as (v1 & s1 & Hchild & Hrun).
  apply bind_Ok in Hrun as (ns & s2 & Hiter & Hrun).
  destruct v1 as [ns'|]; [|done]. injection Hiter as <- <-.
  apply bind_Ok in Hrun as (lst & s3 & Hmap & Hret).
  injection Hret as <- <-.
  pose proof (notes_respects child (fun _ => False) ltac:(done) tick
                _ _ _ Hchild) as (Hpre1 & _).
  apply recolor_all in Hmap as (Hpre2 & Hfresh & Hcopies).
  exists ns', s1, lst. do 6 (split; [done|]).
  intros cached ->. split; [done|].
  intros n o _ Ho. eapply prefix_lookup_Some; [|exact Hpre2].
  by eapply prefix_lookup_Some.
Qed.


(** ** The diff of [write_buf] *)

Lemma cell_of_update_event n c : cell_of (update_event n c) = n.
Proof. by destruct c. Qed.

Lemma diff_events_elem k cells m :
  m ∈ diff_events k cells ->
  exists (i : nat) c back_color,
    cells !! i = Some (c, back_color) /\ c <> back_color
    /\ m = update_event (k + Z.of_nat i) c.
Proof.
  revert k. induction cells as [|[c bc] cells IH]; intros k Hm; simpl in Hm.
  - by apply elem_of_nil in Hm.
  - apply elem_of_app in Hm as [Hm|Hm].
    + case_decide as Hne; [by apply elem_of_nil in Hm|].
      apply list_elem_of_singleton in Hm as ->.
      exists 0%nat, c, bc. by rewrite Z.add_0_r.
    + apply IH in Hm as (i & c' & bc' & Hi & Hne & ->).
      exists (S i), c', bc'. repeat split; [done..|].
      f_equal. lia.
Qed.

Lemma diff_events_filter_below n k cells :
  n < k -> filter (fun m => cell_of m = n) (diff_events k cells) = [].
Proof.
  revert k. induction cells as [|[c bc] cells IH]; intros k Hlt; [done|].
  simpl. rewrite filter_app, IH by lia.
  case_decide; [done|].
  rewrite filter_cons_False, filter_nil; [done|].
  rewrite cell_of_update_event. lia.
Qed.

Lemma diff_events_filter k cells (i : nat) c back_color :
  cells !! i = Some (c, back_color) ->
  filter (fun m => cell_of m = k + Z.of_nat i) (diff_events k cells)
  = if decide (c = back_color) then []
    else [update_event (k + Z.of_nat i) c].
Proof.
  revert k i. induction cells as [|[c0 bc0] cells IH]; intros k i Hi; [done|].
  simpl. rewrite filter_app. destruct i as [|i]; simpl in Hi.
  - injection Hi as -> ->.
    rewrite diff_events_filter_below by lia.
    rewrite Z.add_0_r, app_nil_r.
    case_decide; [done|].
    rewrite filter_cons_True, filter_nil; [done|].
    apply cell_of_update_event.
  - replace (k + Z.of_nat (S i)) with (k + 1 + Z.of_nat i) by lia.
    rewrite (IH _ _ Hi).
    destruct (decide (c0 = bc0)); [by rewrite filter_nil|].
    rewrite filter_cons_False, filter_nil; [done|].
    rewrite cell_of_update_event. lia.
Qed.


(** ** Padding *)

Lemma py_max_key_ge key rest : forall e0,
  key e0 <= key (py_max_key key e0 rest)
  /\ Forall (fun e => key e <= key (py_max_key key e0 rest)) rest.
Proof.
  unfold py_max_key. induction rest as [|e rest IH]; intros e0; simpl.
  - split; [lia|constructor].
  - destruct (Z.ltb_spec (key e0) (key e)) as [Hlt|Hge].
    + destruct (IH e) as [H1 H2]. split; [lia|]. by constructor.
    + destruct (IH e0) as [H1 H2]. split; [done|]. constructor; [lia|done].
Qed.

Lemma py_max_key_elem key rest : forall e0,
  py_max_key key e0 rest ∈ e0 :: rest.
Proof.
  unfold py_max_key. induction rest as [|e rest IH]; intros e0; simpl.
  - apply list_elem_of_here.
  - case_match.
    + apply list_elem_of_further, IH.
    + specialize (IH e0). apply elem_of_cons in IH as [->|IH].
      * apply list_elem_of_here.
      * by do 2 apply list_elem_of_further.
Qed.

(** C7: for a non-empty group, the target duration is the greatest child
    duration; every element of the padded group reports it; a child that is
    not shorter is kept as it is; a shorter child is wrapped, and the wrapper
    renders the child before the child's end and the pad value from then on.
    The pad value of [Concurrent] and [Random] is the empty list. *)
Theorem pad_effects_spec (effects : list Effect) (pad_func : Effect -> pyval) :
  effects <> [] ->
  exists targetDuration,
    (forall e, e ∈ effects -> length e <= targetDuration)
    /\ (exists e, e ∈ effects /\ length e = targetDuration)
    /\ List.length (pad_effects effects pad_func) = List.length effects
    /\ (forall (i : nat) e, effects !! i = Some e ->
          exists w,
            pad_effects effects pad_func !! i = Some w
            /\ length w = targetDuration
            /\ (length e = targetDuration -> w = e)
            /\ (length e < targetDuration ->
                  w = PaddedEffect e targetDuration (pad_func e)
                  /\ forall tick s,
                       (tick < length e -> notes w tick s = notes e tick s)
                       /\ (length e <= tick ->
                             notes w tick s = Ok (pad_func e, s))))
    /\ (forall e, default_pad e = VList [])
    /\ Concurrent_init effects = Concurrent (pad_effects effects default_pad).
Proof.
  intros Hne. destruct effects as [|e0 rest]; [done|].
  exists (length (py_max_key length e0 rest)).
  destruct (py_max_key_ge length rest e0) as [Hge0 Hge].
  assert (Hmax : forall e, e ∈ e0 :: rest ->
                   length e <= length (py_max_key length e0 rest)).
  { intros e [->|He]%elem_of_cons; [done|].
    rewrite Forall_forall in Hge. auto. }
  split; [done|]. split.
  { eexists. split; [apply py_max_key_elem|done]. }
  unfold pad_effects at 1 2. split; [by rewrite length_map|].
  split; [|done].
  intros i e Hi.
  assert (He : length e <= length (py_max_key length e0 rest)).
  { apply Hmax. by eapply list_elem_of_lookup_2. }
  eexists. split.
  { change (map ?f ?l) with (f <$> l). rewrite list_lookup_fmap, Hi. done. }
  simpl.
  destruct (Z.ltb_spec (length e) (length (py_max_key length e0 rest)))
    as [Hlt|Hnlt].
  - split; [done|]. split; [lia|]. intros _. split; [done|].
    intros tick s. cbn [notes]. split; intros Ht.
    + destruct (Z.ltb_spec tick (length e)); [done|lia].
    + destruct (Z.ltb_spec tick (length e)); [lia|done].
  - split; [lia|]. split; [done|]. lia.
Qed.

(** ** The selection of [Random], at the level of [notes] *)

Lemma skip_current_range k d current :
  0 <= d <= k - 2 -> 0 <= current < k ->
  0 <= skip_current d current < k /\ skip_current d current <> current.
Proof. unfold skip_current. case_match; lia. Qed.

Lemma skip_current_bijective k current j :
  0 <= current < k -> 0 <= j < k -> j <> current ->
  exists d, 0 <= d <= k - 2 /\ skip_current d current = j
            /\ forall d', skip_current d' current = j -> d' = d.
Proof.
  intros Hc Hj Hne.
  exists (if j <? current then j else j - 1).
  unfold skip_current.
  destruct (Z.ltb_spec j current).
  - split; [lia|]. split; [case_match; lia|].
    intros d'. case_match; lia.
  - split; [lia|]. split; [case_match; lia|].
    intros d'. case_match; lia.
Qed.

Lemma Random_notes_steps effects cell tick s v s' :
  effects <> [] ->
  Forall (fun e => uses_cell cell e = false) effects ->
  notes (Random effects cell) tick s = Ok (v, s') ->
  exists s1,
    (if tick =? 0 then Random_select (Z.of_nat (List.length effects)) cell
     else ret tt) s = Ok (tt, s1)
    /\ sel s' !! cell = sel s1 !! cell.
Proof.
  intros Hne Hfree Hrun. cbn [notes] in Hrun.
  destruct (Z.eqb_spec (Z.of_nat (List.length effects)) 0) as [Hz|_].
  { destruct effects; [done|simpl in Hz; lia]. }
  apply bind_Ok in Hrun as ([] & s1 & Hsel & Hrun).
  exists s1. split; [done|].
  apply bind_Ok in Hrun as (cur & s2 & Hget & Hrun).
  assert (s2 = s1) as ->.
  { unfold get_sel in Hget. destruct (sel s1 !! cell); [|done].
    by injection Hget as _ <-. }
  destruct cur as [i|]; [|done].
  eapply (respects_at_index (fun c => c = cell)) in Hrun.
  - destruct Hrun as (_ & _ & _ & Hkeep). by apply Hkeep.
  - apply Forall_forall. intros e He. cbv beta.
    destruct (tick >=? length e); [apply respects_ret|].
    apply notes_respects. intros c ->.
    rewrite Forall_forall in Hfree. auto.
Qed.

Lemma skip_current_neq d current : skip_current d current <> current.
Proof. unfold skip_current. case_match; lia. Qed.

Lemma Random_select_held len cell s s1 :
  Random_select len cell s = Ok (tt, s1) -> is_Some (sel s !! cell).
Proof.
  intros Hrun. unfold Random_select in Hrun.
  apply bind_Ok in Hrun as (cur & s0 & Hget & _).
  unfold get_sel in Hget. destruct (sel s !! cell); [by eexists|done].
Qed.

(** C8: for a [Random] over [k >= 2] (padded) children, none of which is
    or contains the [Random] object itself: a render at a tick other than 0
    keeps the held index; a render at tick 0 that follows a selection [i]
    replaces it by [skip_current d i], where [d] is the draw from
    [[0, k - 2]], an index different from [i] (and inside [[0, k - 1]] when
    [i] is); hence two consecutive renders at tick 0 never hold the same
    index.  Every index other than [i] is the image of exactly one draw, so a
    uniform draw gives a uniform choice among the other indices; the first
    selection is the draw from [[0, k - 1]] itself. *)
Theorem Random_never_repeats (effects : list Effect) (cell : loc) :
  let k := Z.of_nat (List.length effects) in
  2 <= k ->
  Forall (fun e => uses_cell cell e = false) effects ->
  (forall tick s v s',
     notes (Random effects cell) tick s = Ok (v, s') ->
     (tick <> 0 -> sel s' !! cell = sel s !! cell)
     /\ (tick = 0 -> forall i,
           sel s !! cell = Some (Some i) ->
           exists d j,
             0 <= d <= k - 2 /\ d = entropy s (draws s) mod (k - 1)
             /\ j = skip_current d i
             /\ sel s' !! cell = Some (Some j)
             /\ j <> i /\ (0 <= i < k -> 0 <= j < k))
     /\ (tick = 0 -> sel s !! cell = Some None ->
           exists j,
             j = entropy s (draws s) mod k
             /\ sel s' !! cell = Some (Some j) /\ 0 <= j < k))
  /\ (forall s0 v1 s1 v2 s2,
        notes (Random effects cell) 0 s0 = Ok (v1, s1) ->
        notes (Random effects cell) 0 s1 = Ok (v2, s2) ->
        exists i j, sel s1 !! cell = Some (Some i)
                    /\ sel s2 !! cell = Some (Some j) /\ j <> i)
  /\ (forall i j, 0 <= i < k -> 0 <= j < k -> j <> i ->
        exists d, 0 <= d <= k - 2 /\ skip_current d i = j
                  /\ forall d', skip_current d' i = j -> d' = d).
Proof.
  intros k Hk Hfree.
  assert (Hne : effects <> []).
  { intros ->. simpl in k. lia. }
  assert (Hstep : forall tick s v s',
     notes (Random effects cell) tick s = Ok (v, s') ->
     (tick <> 0 -> sel s' !! cell = sel s !! cell)
     /\ (tick = 0 -> forall i,
           sel s !! cell = Some (Some i) ->
           exists d j,
             0 <= d <= k - 2 /\ d = entropy s (draws s) mod (k - 1)
             /\ j = skip_current d i
             /\ sel s' !! cell = Some (Some j)
             /\ j <> i /\ (0 <= i < k -> 0 <= j < k))
     /\ (tick = 0 -> sel s !! cell = Some None ->
           exists j,
             j = entropy s (draws s) mod k
             /\ sel s' !! cell = Some (Some j) /\ 0 <= j < k)).
  { intros tick s v s' Hrun.
    destruct (Random_notes_steps _ _ _ _ _ _ Hne Hfree Hrun)
      as (s1 & Hsel & Hheld).
    fold k in Hsel. rewrite Hheld. clear Hrun Hheld.
    split; [|split].
    - intros Htick. destruct (Z.eqb_spec tick 0); [done|].
      by injection Hsel as <-.
    - intros -> i Hi. simpl in Hsel.
      rewrite (Random_select_again k cell s i Hi Hk) in Hsel.
      injection Hsel as <-. simpl.
      pose proof (Z.mod_pos_bound (entropy s (draws s)) (k - 1) ltac:(lia))
        as Hd.
      eexists _, _. split; [|split; [reflexivity|split; [reflexivity|]]];
        [lia|].
      split; [|split].
      + apply list_lookup_insert_eq. by eapply lookup_lt_Some.
      + apply skip_current_neq.
      + intros Hrange.
        by destruct (skip_current_range k (entropy s (draws s) mod (k - 1)) i
                       ltac:(lia) Hrange).
    - intros -> Hnone. simpl in Hsel.
      rewrite (Random_select_first k cell s Hnone ltac:(lia)) in Hsel.
      injection Hsel as <-. simpl.
      pose proof (Z.mod_pos_bound (entropy s (draws s)) k ltac:(lia)) as Hd.
      eexists. split; [reflexivity|]. split; [|lia].
      apply list_lookup_insert_eq. by eapply lookup_lt_Some. }
  split; [exact Hstep|]. split; [|intros i j; apply skip_current_bijective].
  intros s0 v1 s1 v2 s2 Hrun1 Hrun2.
  assert (Hheld1 : exists i, sel s1 !! cell = Some (Some i)).
  { destruct (Random_notes_steps _ _ _ _ _ _ Hne Hfree Hrun1)
      as (s' & Hsel & _).
    apply Random_select_held in Hsel as [cur Hcur].
    destruct (Hstep _ _ _ _ Hrun1) as (_ & Hagain & Hfirst).
    destruct cur as [i0|].
    - destruct (Hagain eq_refl i0 Hcur) as (_ & j & _ & _ & _ & Hj & _).
      by exists j.
    - destruct (Hfirst eq_refl Hcur) as (j & _ & Hj & _). by exists j. }
  destruct Hheld1 as [i Hi].
  destruct (Hstep _ _ _ _ Hrun2) as (_ & Hagain & _).
  destruct (Hagain eq_refl i Hi) as (_ & j & _ & _ & _ & Hj & Hne' & _).
  by exists i, j.
Qed.

(** ** The properties at concrete inputs *)



Lemma Sequential_two_witness :
  length demo_sequence = 2
  /\ notes demo_sequence 0 demo_state = Ok (VList [0%nat], demo_state)
  /\ notes demo_sequence 1 demo_state = Ok (VList [1%nat], demo_state).
Proof.
  destruct (Sequential_two (Note 0%nat) (Note 1%nat)) as (Hlen & Hfirst & Hsecond).
  split; [exact Hlen|]. split.
  - unfold demo_sequence. rewrite Hfirst; [reflexivity|simpl; lia].
  - unfold demo_sequence. rewrite Hsecond; [reflexivity|simpl; lia].
Defined.

Lemma pad_effects_spec_witness :
  exists w,
    pad_effects [Note 0%nat; demo_sequence] default_pad !! 0%nat = Some w
    /\ length w = 2
    /\ notes w 1 demo_state = Ok (VList [], demo_state).
Proof.
  destruct (pad_effects_spec [Note 0%nat; demo_sequence] default_pad
              ltac:(discriminate))
    as (target & Hmax & _ & _ & Hpad & _).
  assert (Htarget : target = 2).
  { destruct (Hpad 1%nat demo_sequence eq_refl) as (w & Hw & Hlen & _).
    injection Hw as <-. symmetry. exact Hlen. }
  subst target.
  destruct (Hpad 0%nat (Note 0%nat) eq_refl) as (w & Hw & Hlen & _ & Hshort).
  exists w. split; [exact Hw|]. split; [exact Hlen|].
  destruct (Hshort ltac:(simpl; lia)) as [_ Hrender].
  exact (proj2 (Hrender 1 demo_state) ltac:(simpl; lia)).
Defined.

Lemma Random_never_repeats_witness :
  exists v s',
    notes (Random [Note 0%nat; Note 1%nat] 0%nat) 0 demo_state = Ok (v, s')
    /\ sel demo_state !! 0%nat = Some (Some 0)
    /\ sel s' !! 0%nat = Some (Some 1).
Proof.
  eexists _, _.
  match goal with
  | |- ?A /\ _ => assert (H : A) by (vm_compute; reflexivity)
  end.
  split; [exact H|]. split; [reflexivity|].
  destruct (Random_never_repeats [Note 0%nat; Note 1%nat] 0%nat
              ltac:(simpl; lia) ltac:(repeat constructor)) as [Hstep _].
  destruct (Hstep _ _ _ _ H) as (_ & Hagain & _).
  destruct (Hagain eq_refl 0 eq_refl) as (d & j & _ & Hd & Hj & Hsel & _).
  rewrite Hj, Hd in Hsel. exact Hsel.
Defined.

Lemma Loop_length_notes_witness :
  length (Loop demo_sequence 3) = 6
  /\ notes (Loop demo_sequence 3) 5 demo_state
     = Ok (VList [1%nat], demo_state).
Proof.
  destruct (Loop_length_notes demo_sequence 3) as (Hlen & _ & Hmod & _).
  split; [rewrite Hlen; reflexivity|].
  rewrite Hmod; [reflexivity|simpl; lia].
Defined.

Lemma RandomColor_notes_copies_witness :
  exists v s',
    notes (RandomColor demo_rectangle 0 127) 0 demo_state = Ok (v, s')
    /\ v = VList [4; 5; 6; 7]%nat
    /\ heap demo_state `prefix_of` heap s'
    /\ notes demo_rectangle 0 s' = Ok (VList [0; 1; 2; 3]%nat, s').
Proof.
  eexists _, _.
  match goal with
  | |- ?A /\ _ => assert (H : A) by (vm_compute; reflexivity)
  end.
  split; [exact H|]. split; [reflexivity|].
  destruct (RandomColor_notes_copies _ _ _ _ _ _ _ H)
    as (ns & s1 & lst & Hchild & _ & Hpre1 & Hpre2 & _ & _ & Hrect).
  split.
  - injection Hchild as _ <-. exact Hpre2.
  - exact (proj1 (Hrect _ eq_refl)).
Defined.

(** * Further properties of the code *)

(** ** The linear index of a grid position *)

(** The index [y * 10 + x + 11] used by [draw_effect] numbers the positions
    of the grid [x, y in [-1, 8]] one to one onto [[0, 99]]: the cell [i]
    belongs to the position [(i mod 10 - 1, i / 10 - 1)] and to no other
    position of the grid. *)
Theorem midi_note_of_grid_bijection :
  (forall p, in_grid p -> 0 <= midi_note_of p < 100)
  /\ (forall p q, in_grid p -> in_grid q ->
        midi_note_of p = midi_note_of q -> p = q)
  /\ (forall i, 0 <= i < 100 ->
        in_grid (i mod 10 - 1, i / 10 - 1)
        /\ midi_note_of (i mod 10 - 1, i / 10 - 1) = i).
Proof.
  unfold in_grid, midi_note_of. split; [|split].
  - intros [x y]; simpl. lia.
  - intros [x y] [x' y']; cbn [fst snd]. intros Hp Hq Heq.
    assert (y = y') by lia. assert (x = x') by lia. congruence.
  - intros i Hi. cbn [fst snd].
    pose proof (Z.div_mod i 10 ltac:(lia)).
    pose proof (Z.mod_pos_bound i 10 ltac:(lia)). split; lia.
Qed.

(** ** The messages are valid MIDI *)

Lemma brightness_of_compon_byte c : 0 <= brightness_of_compon c <= 127.
Proof. pose proof (brightness_of_compon_range c). unfold MAX_BRIGHTNESS in *. lia. Qed.

(** Every message that [write_buf] sends for buffers of at most 128 cells
    addresses a cell by a note number in [[0, 127]]; an RGB message carries
    exactly ten data bytes (the six bytes of the header, the note number and
    three brightness values), all in [[0, 127]].  The velocity of a palette
    message is the palette value itself, whatever it is. *)
Theorem write_buf_messages_valid (lp : Launchpad) (m : Message) :
  (List.length (buf lp) <= 128)%nat ->
  m ∈ drop (List.length (port lp)) (port (write_buf lp)) ->
  match m with
  | note_on note velocity =>
      0 <= note <= 127
      /\ exists n : nat, note = Z.of_nat n
                         /\ buf lp !! n = Some (Palette velocity)
  | sysex data =>
      List.length data = 10%nat /\ Forall (fun byte => 0 <= byte <= 127) data
  end.
Proof.
  intros Hlen Hm. simpl in Hm. rewrite drop_app_length in Hm.
  apply diff_events_elem in Hm as (n & c & bc & Hn & _ & ->).
  apply lookup_zip_with_Some in Hn as (c' & bc' & [= <- <-] & Hc & _).
  pose proof (lookup_lt_Some _ _ _ Hc) as Hlt.
  destruct c as [v|r g b]; simpl.
  - split; [lia|]. exists n. split; [lia|done].
  - split; [done|].
    pose proof (brightness_of_compon_byte r).
    pose proof (brightness_of_compon_byte g).
    pose proof (brightness_of_compon_byte b).
    repeat constructor; lia.
Qed.

(** ** Padding a group twice *)

Lemma pad_effects_uniform effects pad_func e0 rest :
  effects = e0 :: rest ->
  Forall (fun w => length w = length (py_max_key length e0 rest))
         (pad_effects effects pad_func).
Proof.
  intros ->. unfold pad_effects.
  destruct (py_max_key_ge length rest e0) as [Hge0 Hge].
  assert (Hall : Forall (fun e => length e
                                  <= length (py_max_key length e0 rest))
                        (e0 :: rest)) by (by constructor).
  apply Forall_forall. intros w Hw.
  apply list_elem_of_fmap in Hw as (e & -> & He).
  rewrite Forall_forall in Hall. specialize (Hall e He).
  destruct (Z.ltb_spec (length e) (length (py_max_key length e0 rest)));
    simpl; lia.
Qed.

Lemma pad_effects_equal_lengths effects pad_func len :
  Forall (fun e => length e = len) effects ->
  pad_effects effects pad_func = effects.
Proof.
  intros Hall. destruct effects as [|e0 rest]; [done|].
  unfold pad_effects.
  assert (Hmax : length (py_max_key length e0 rest) = len).
  { pose proof (py_max_key_elem length rest e0) as Hin.
    rewrite Forall_forall in Hall. auto. }
  rewrite Hmax.
  rewrite <- (map_id (e0 :: rest)) at 2.
  apply map_ext_Forall, Forall_forall. intros e He.
  rewrite Forall_forall in Hall. rewrite (Hall e He).
  by rewrite Z.ltb_irrefl.
Qed.

(** After [pad_effects] all elements of the group have one and the same
    duration, which is at least the duration of every original child; a group
    whose children already have equal durations is returned as it is, so
    padding an already padded group changes nothing. *)
Theorem pad_effects_idempotent (effects : list Effect)
    (pad_func pad_func' : Effect -> pyval) :
  (exists len, Forall (fun w => length w = len) (pad_effects effects pad_func)
               /\ Forall (fun e => length e <= len) effects)
  /\ (forall len, Forall (fun e => length e = len) effects ->
        pad_effects effects pad_func = effects)
  /\ pad_effects (pad_effects effects pad_func) pad_func'
     = pad_effects effects pad_func.
Proof.
  assert (Huni : exists len,
             Forall (fun w => length w = len) (pad_effects effects pad_func)
             /\ Forall (fun e => length e <= len) effects).
  { destruct effects as [|e0 rest].
    - exists 0. by split; constructor.
    - exists (length (py_max_key length e0 rest)). split.
      + by apply pad_effects_uniform.
      + destruct (py_max_key_ge length rest e0). by constructor. }
  split; [exact Huni|]. split.
  - intros len. apply pad_effects_equal_lengths.
  - destruct Huni as (len & Hlen & _).
    by eapply pad_effects_equal_lengths.
Qed.

(** ** [Sequential] over any number of children *)

(** With children of non-negative duration, a tick that falls in the window
    of a child (after the durations of the children before it) is rendered
    by that child at the tick counted from the start of its window. *)
Theorem Sequential_notes_locate (before after : list Effect) (e : Effect)
    (tick : Z) (s : state) :
  Forall (fun e' => 0 <= length e') before ->
  length (Sequential before) <= tick < length (Sequential before) + length e ->
  length (Sequential (before ++ e :: after))
  = length (Sequential before) + length e + length (Sequential after)
  /\ notes (Sequential (before ++ e :: after)) tick s
     = notes e (tick - length (Sequential before)) s.
Proof.
  intros Hpos. revert tick.
  induction Hpos as [|e0 before He0 Hpos IH]; intros tick Htick.
  - split; [rewrite app_nil_l, Sequential_length_cons; simpl; lia|].
    change (length (Sequential [])) with 0 in *.
    rewrite app_nil_l, Z.sub_0_r.
    change (notes (Sequential (e :: after)) tick s)
      with ((if tick >=? length e
             then notes (Sequential after) (tick - length e)
             else notes e tick) s).
    destruct (Z.geb_spec tick (length e)); [lia|done].
  - rewrite Sequential_length_cons in Htick |- *.
    pose proof (Sequential_length_nonneg before Hpos).
    destruct (IH (tick - length e0) ltac:(lia)) as [IHlen IHnotes].
    split.
    + rewrite <- app_comm_cons, Sequential_length_cons, IHlen. lia.
    + rewrite <- app_comm_cons.
      change (notes (Sequential (e0 :: before ++ e :: after)) tick s)
        with ((if tick >=? length e0
               then notes (Sequential (before ++ e :: after)) (tick - length e0)
               else notes e0 tick) s).
      destruct (Z.geb_spec tick (length e0)); [|lia].
      rewrite IHnotes. f_equal. lia.
Qed.

Lemma Sequential_notes_app_left l1 l2 : forall tick s,
  Forall (fun e => 0 <= length e) l1 ->
  0 <= tick < length (Sequential l1) ->
  notes (Sequential (l1 ++ l2)) tick s = notes (Sequential l1) tick s.
Proof.
  induction l1 as [|e l1 IH]; intros tick s Hpos Htick.
  - change (length (Sequential [])) with 0 in Htick. lia.
  - apply Forall_cons in Hpos as [He Hpos].
    rewrite Sequential_length_cons in Htick.
    rewrite <- app_comm_cons.
    change (notes (Sequential (e :: l1 ++ l2)) tick s)
      with ((if tick >=? length e
             then notes (Sequential (l1 ++ l2)) (tick - length e)
             else notes e tick) s).
    change (notes (Sequential (e :: l1)) tick s)
      with ((if tick >=? length e
             then notes (Sequential l1) (tick - length e)
             else notes e tick) s).
    destruct (Z.geb_spec tick (length e)); [|done].
    apply IH; [done|lia].
Qed.

Lemma Sequential_notes_app_right l1 l2 : forall tick s,
  Forall (fun e => 0 <= length e) l1 ->
  length (Sequential l1) <= tick ->
  notes (Sequential (l1 ++ l2)) tick s
  = notes (Sequential l2) (tick - length (Sequential l1)) s.
Proof.
  induction l1 as [|e l1 IH]; intros tick s Hpos Htick.
  - change (length (Sequential [])) with 0. by rewrite Z.sub_0_r.
  - apply Forall_cons in Hpos as [He Hpos].
    rewrite Sequential_length_cons in Htick |- *.
    pose proof (Sequential_length_nonneg l1 Hpos).
    rewrite <- app_comm_cons.
    change (notes (Sequential (e :: l1 ++ l2)) tick s)
      with ((if tick >=? length e
             then notes (Sequential (l1 ++ l2)) (tick - length e)
             else notes e tick) s).
    destruct (Z.geb_spec tick (length e)); [|lia].
    rewrite IH by (done || lia). f_equal. lia.
Qed.

Lemma Sequential_length_app l1 l2 :
  length (Sequential (l1 ++ l2))
  = length (Sequential l1) + length (Sequential l2).
Proof.
  induction l1 as [|e l1 IH]; [done|].
  rewrite <- app_comm_cons, !Sequential_length_cons, IH. lia.
Qed.

(** Nesting two sequences inside a sequence is the same as one sequence of
    all the children: for children of non-negative duration and every tick
    from 0 upwards, both have the same duration and render the same. *)
Theorem Sequential_flatten (l1 l2 : list Effect) (tick : Z) (s : state) :
  Forall (fun e => 0 <= length e) l1 ->
  Forall (fun e => 0 <= length e) l2 ->
  0 <= tick ->
  length (Sequential [Sequential l1; Sequential l2])
  = length (Sequential (l1 ++ l2))
  /\ notes (Sequential [Sequential l1; Sequential l2]) tick s
     = notes (Sequential (l1 ++ l2)) tick s.
Proof.
  intros Hpos1 Hpos2 Htick. split.
  { rewrite Sequential_length_app, !Sequential_length_cons.
    change (length (Sequential [])) with 0. lia. }
  change (notes (Sequential [Sequential l1; Sequential l2]) tick s)
    with ((if tick >=? length (Sequential l1)
           then (if tick - length (Sequential l1) >=? length (Sequential l2)
                 then ret VNone
                 else notes (Sequential l2) (tick - length (Sequential l1)))
           else notes (Sequential l1) tick) s).
  destruct (Z.geb_spec tick (length (Sequential l1))).
  - rewrite Sequential_notes_app_right by (done || lia).
    destruct (Z.geb_spec (tick - length (Sequential l1))
                         (length (Sequential l2))); [|done].
    symmetry. apply Sequential_notes_past_end; [done|lia].
  - symmetry. apply Sequential_notes_app_left; [done|lia].
Qed.

(** ** A loop of a loop *)

(** Looping a loop is looping the child the product of the two counts:
    when the child's duration and the inner count are not 0, both have the
    same duration and render the same at every tick.  With an inner count of
    0 the inner loop has duration 0 and the outer loop raises
    [ZeroDivisionError] at every tick. *)
Theorem Loop_Loop (a : Effect) (m n : Z) :
  length (Loop (Loop a m) n) = length (Loop a (m * n))
  /\ (forall tick s, length a <> 0 -> m <> 0 ->
        notes (Loop (Loop a m) n) tick s = notes (Loop a (m * n)) tick s)
  /\ (forall tick s, notes (Loop (Loop a 0) n) tick s
                     = Raise ZeroDivisionError).
Proof.
  split; [simpl; lia|]. split.
  - intros tick s Ha Hm. cbn [notes length]. unfold py_mod, bind.
    destruct (Z.eqb_spec (length a * m) 0); [lia|].
    destruct (Z.eqb_spec (length a) 0); [lia|].
    cbn [ret]. rewrite Z.mod_mod_divide; [done|].
    by exists m; lia.
  - intros tick s. cbn [notes length]. unfold py_mod, bind.
    by rewrite Z.mul_0_r.
Qed.

(** ** [Concurrent] as concatenation *)

Lemma Concurrent_notes_app rec tick l1 l2 : forall lst s,
  Concurrent_notes rec tick (l1 ++ l2) lst s
  = match Concurrent_notes rec tick l1 lst s with
    | Ok (VList out, s1) => Concurrent_notes rec tick l2 out s1
    | Ok (VNone, s1) => Ok (VNone, s1)
    | Raise e => Raise e
    end.
Proof.
  induction l1 as [|e l1 IH]; intros lst s; [done|].
  cbn [Concurrent_notes app]. unfold bind.
  destruct (rec e tick s) as [[v s1]|x]; [|done].
  destruct (iter_val v s1) as [[ns s2]|x]; [|done].
  apply IH.
Qed.

Lemma Concurrent_notes_acc rec tick l : forall lst s,
  Concurrent_notes rec tick l lst s
  = match Concurrent_notes rec tick l [] s with
    | Ok (VList out, s1) => Ok (VList (lst ++ out), s1)
    | Ok (VNone, s1) => Ok (VNone, s1)
    | Raise e => Raise e
    end.
Proof.
  induction l as [|e l IH]; intros lst s.
  - simpl. unfold ret. by rewrite app_nil_r.
  - cbn [Concurrent_notes]. unfold bind.
    destruct (rec e tick s) as [[v s1]|x]; [|done].
    destruct (iter_val v s1) as [[ns s2]|x]; [|done].
    rewrite IH, (IH ([] ++ ns)).
    destruct (Concurrent_notes rec tick l [] s2) as [[[out|] s3]|x]; [|done..].
    by rewrite app_assoc.
Qed.

(** [Concurrent.notes] renders the children from left to right, each in the
    state the one before it left, and returns their notes concatenated in
    that order: a group [l1 ++ l2] renders as [l1] followed by [l2]; a group
    of one child returns the child's notes, and raises [TypeError] when the
    child returned [None]; the result is never [None]. *)
Theorem Concurrent_notes_concat (tick : Z) (s : state) :
  (forall l1 l2,
     notes (Concurrent (l1 ++ l2)) tick s
     = match notes (Concurrent l1) tick s with
       | Ok (VList out1, s1) =>
           match notes (Concurrent l2) tick s1 with
           | Ok (VList out2, s2) => Ok (VList (out1 ++ out2), s2)
           | other => other
           end
       | other => other
       end)
  /\ (forall e,
        notes (Concurrent [e]) tick s
        = match notes e tick s with
          | Ok (VList ns, s1) => Ok (VList ns, s1)
          | Ok (VNone, _) => Raise TypeError
          | Raise x => Raise x
          end)
  /\ (forall l s', notes (Concurrent l) tick s <> Ok (VNone, s')).
Proof.
  split; [|split].
  - intros l1 l2. cbn [notes]. rewrite Concurrent_notes_app.
    destruct (Concurrent_notes notes tick l1 [] s) as [[[out1|] s1]|x];
      [|done..].
    rewrite Concurrent_notes_acc.
    by destruct (Concurrent_notes notes tick l2 [] s1) as [[[out2|] s2]|x].
  - intros e. cbn [notes Concurrent_notes]. unfold bind.
    destruct (notes e tick s) as [[[ns|] s1]|x]; done.
  - intros l. cbn [notes]. generalize (@nil loc). revert s.
    induction l as [|e l IH]; intros s lst s'; [done|].
    cbn [Concurrent_notes]. unfold bind.
    destruct (notes e tick s) as [[v s1]|x]; [|done].
    destruct (iter_val v s1) as [[ns s2]|x]; [|done].
    apply IH.
Qed.

(** ** [Rectangle] *)

Lemma mapM_new_note c ps : forall s,
  mapM (fun p => new_note p c) ps s
  = Ok (seq (List.length (heap s)) (List.length ps),
        MkState (heap s ++ map (fun p => MkNote p c) ps)
                (sel s) (entropy s) (draws s)).
Proof.
  induction ps as [|p ps IH]; intros s.
  - simpl. unfold ret. rewrite app_nil_r. by destruct s.
  - cbn [mapM]. unfold bind at 1. cbn [new_note].
    unfold bind at 1. rewrite IH. cbn [heap sel entropy draws ret].
    rewrite length_app. cbn [List.length map seq].
    rewrite Nat.add_1_r, <- app_assoc. reflexivity.
Qed.

Lemma elem_of_grid x0 x1 y0 y1 x y :
  (x, y) ∈ grid x0 x1 y0 y1 <-> x0 <= x < x1 /\ y0 <= y < y1.
Proof.
  unfold grid, py_range. rewrite list_elem_of_In, in_concat. split.
  - intros (row & Hrow & Hin).
    apply in_map_iff in Hrow as (x' & <- & Hx').
    apply in_map_iff in Hin as (y' & [= <- <-] & Hy').
    apply list_elem_of_In, elem_of_seqZ in Hx', Hy'. lia.
  - intros [Hx Hy]. exists (map (fun y => (x, y)) (seqZ y0 (y1 - y0))). split.
    + apply in_map_iff. exists x. split; [done|].
      apply list_elem_of_In, elem_of_seqZ. lia.
    + apply in_map_iff. exists y. split; [done|].
      apply list_elem_of_In, elem_of_seqZ. lia.
Qed.

Lemma NoDup_grid x0 x1 y0 y1 : NoDup (grid x0 x1 y0 y1).
Proof.
  unfold grid, py_range.
  pose proof (NoDup_seqZ x0 (x1 - x0)) as Hxs.
  pose proof (NoDup_seqZ y0 (y1 - y0)) as Hys.
  induction Hxs as [|x xs Hx Hxs IH]; [constructor|].
  cbn [map concat]. apply NoDup_app. split; [|split; [|done]].
  - change (map ?f ?l) with (f <$> l). apply NoDup_fmap; [|done].
    by intros y y' [= ->].
  - intros [x' y'] Hin Hin'.
    apply list_elem_of_In, in_map_iff in Hin as (y'' & [= <- <-] & _).
    apply list_elem_of_In, in_concat in Hin' as (row & Hrow & Hin').
    apply in_map_iff in Hrow as (x'' & <- & Hx'').
    apply in_map_iff in Hin' as (y''' & [= <- <-] & _).
    by apply list_elem_of_In in Hx''.
Qed.

Lemma length_grid x0 x1 y0 y1 :
  List.length (grid x0 x1 y0 y1)
  = (Z.to_nat (x1 - x0) * Z.to_nat (y1 - y0))%nat.
Proof.
  unfold grid, py_range.
  rewrite <- (length_seqZ x0 (x1 - x0)).
  induction (seqZ x0 (x1 - x0)) as [|x xs IH]; [done|].
  cbn [map concat List.length]. rewrite length_app, length_map, IH.
  rewrite length_seqZ. lia.
Qed.

(** [Rectangle(ll, ur, color)] creates one new [Note] object for every
    position of the inclusive box between [ll] and [ur], each position once
    and each with [color], [(ur.x - ll.x + 1) * (ur.y - ll.y + 1)] objects in
    all and none when [ur] is below or left of [ll]; the existing objects are
    untouched; the rectangle has duration 1 and renders these same objects at
    every tick, in every later state. *)
Theorem Rectangle_init_box (ll ur : Z * Z) (c : Color) (s : state) :
  exists box ns s',
    Rectangle_init ll ur c s = Ok (Rectangle ns, s')
    /\ heap s' = heap s ++ map (fun p => MkNote p c) box
    /\ sel s' = sel s /\ draws s' = draws s
    /\ ns = seq (List.length (heap s)) (List.length box)
    /\ Forall2 (fun l p => heap s' !! l = Some (MkNote p c)) ns box
    /\ NoDup box
    /\ (forall x y, (x, y) ∈ box <->
                    fst ll <= x <= fst ur /\ snd ll <= y <= snd ur)
    /\ List.length box
       = (Z.to_nat (fst ur - fst ll + 1) * Z.to_nat (snd ur - snd ll + 1))%nat
    /\ length (Rectangle ns) = 1
    /\ forall tick s'', notes (Rectangle ns) tick s'' = Ok (VList ns, s'').
Proof.
  set (box := grid (fst ll) (fst ur + 1) (snd ll) (snd ur + 1)).
  exists box, (seq (List.length (heap s)) (List.length box)).
  eexists. split.
  { unfold Rectangle_init. fold box. unfold bind.
    rewrite mapM_new_note. reflexivity. }
  cbn [heap sel draws]. do 4 (split; [done|]). split.
  { apply Forall2_lookup. intros i.
    destruct (decide (i < List.length box)%nat) as [Hi|Hi].
    - destruct (lookup_lt_is_Some_2 box i Hi) as [p Hp].
      rewrite lookup_seq_lt, Hp by done. constructor.
      rewrite lookup_app_r by lia.
      replace (List.length (heap s) + i - List.length (heap s))%nat
        with i by lia.
      change (map ?f ?l) with (f <$> l). by rewrite list_lookup_fmap, Hp.
    - rewrite lookup_seq_ge, (lookup_ge_None_2 box) by lia. constructor. }
  split; [apply NoDup_grid|]. split.
  { intros x y. unfold box. rewrite elem_of_grid. lia. }
  split.
  { unfold box. rewrite length_grid. f_equal; f_equal; lia. }
  done.
Qed.

(** ** [Translate] *)

Lemma deref_extend s s' ns objs :
  heap s `prefix_of` heap s' -> deref s ns objs -> deref s' ns objs.
Proof.
  intros Hpre Hd. eapply Forall2_impl; [exact Hd|].
  intros n o Hn. simpl in Hn. by eapply prefix_lookup_Some.
Qed.

Lemma deref_live s ns :
  Forall (fun n => (n < List.length (heap s))%nat) ns ->
  exists objs, deref s ns objs.
Proof.
  induction 1 as [|n ns Hn _ [objs IH]].
  - exists []. constructor.
  - destruct (lookup_lt_is_Some_2 _ _ Hn) as [o Ho].
    exists (o :: objs). by constructor.
Qed.

Lemma deref_seq_app h objs sl en dr :
  deref (MkState (h ++ objs) sl en dr)
        (seq (List.length h) (List.length objs)) objs.
Proof.
  apply Forall2_lookup. intros i. simpl.
  destruct (decide (i < List.length objs)%nat) as [Hi|Hi].
  - destruct (lookup_lt_is_Some_2 objs i Hi) as [o Ho].
    rewrite lookup_seq_lt, Ho by done. constructor.
    rewrite lookup_app_r by lia.
    by replace (List.length h + i - List.length h)%nat with i by lia.
  - rewrite lookup_seq_ge, (lookup_ge_None_2 objs) by lia. constructor.
Qed.

Lemma translate_all offset ns : forall objs s,
  deref s ns objs ->
  mapM (fun n => o <- get_note n ;;
                 new_note (fst (pos o) + fst offset, snd (pos o) + snd offset)
                          (color o)) ns s
  = Ok (seq (List.length (heap s)) (List.length ns),
        MkState (heap s ++ map (shift offset) objs)
                (sel s) (entropy s) (draws s)).
Proof.
  induction ns as [|n ns IH]; intros objs s Hd.
  - apply Forall2_nil_inv_l in Hd as ->. simpl. unfold ret.
    rewrite app_nil_r. by destruct s.
  - apply Forall2_cons_inv_l in Hd as (o & objs' & Ho & Hd & ->).
    cbn [mapM]. unfold bind at 1 2, get_note. rewrite Ho.
    cbn [new_note]. unfold bind at 1.
    rewrite (IH objs').
    + cbn [heap sel entropy draws ret]. rewrite length_app.
      cbn [List.length map seq]. rewrite Nat.add_1_r, <- app_assoc.
      reflexivity.
    + eapply deref_extend; [|exact Hd]. simpl. by apply prefix_app_r.
Qed.

Lemma Translate_notes_shift_aux child offset tick s ns s1 objs :
  notes child tick s = Ok (VList ns, s1) ->
  deref s1 ns objs ->
  exists out s',
    notes (Translate child offset) tick s = Ok (VList out, s')
    /\ deref s' out (map (shift offset) objs)
    /\ heap s' = heap s1 ++ map (shift offset) objs
    /\ sel s' = sel s1 /\ draws s' = draws s1
    /\ deref s' ns objs.
Proof.
  intros Hchild Hd. cbn [notes].
  rewrite (bind_eq _ _ _ _ _ Hchild). cbn [iter_val].
  rewrite (bind_eq (ret ns) _ s1 ns s1 eq_refl).
  rewrite (bind_eq _ _ _ _ _ (translate_all offset ns objs s1 Hd)).
  eexists _, _. split; [reflexivity|]. cbn [heap sel draws]. split.
  - replace (List.length ns) with (List.length (map (shift offset) objs)).
    + apply deref_seq_app.
    + rewrite length_map. symmetry. exact (Forall2_length _ _ _ Hd).
  - do 3 (split; [done|]).
    eapply deref_extend; [|exact Hd]. by apply prefix_app_r.
Qed.

(** [Translate] has the duration of its child.  When the child renders the
    live notes [ns], the translation renders as many new objects, the
    child's notes moved by the offset with their colours unchanged; the
    child's own notes stay as they were.  When the child returns [None] the
    translation raises [TypeError]. *)
Theorem Translate_notes_shift (child : Effect) (offset : Z * Z) (tick : Z)
    (s : state) :
  length (Translate child offset) = length child
  /\ (forall s1, notes child tick s = Ok (VNone, s1) ->
        notes (Translate child offset) tick s = Raise TypeError)
  /\ (forall ns s1 objs,
        notes child tick s = Ok (VList ns, s1) ->
        deref s1 ns objs ->
        exists out s',
          notes (Translate child offset) tick s = Ok (VList out, s')
          /\ deref s' out (map (shift offset) objs)
          /\ heap s' = heap s1 ++ map (shift offset) objs
          /\ sel s' = sel s1 /\ draws s' = draws s1
          /\ deref s' ns objs).
Proof.
  split; [done|]. split.
  - intros s1 Hchild. cbn [notes]. by rewrite (bind_eq _ _ _ _ _ Hchild).
  - intros ns s1 objs. apply Translate_notes_shift_aux.
Qed.

Lemma shift_shift o1 o2 o :
  shift o2 (shift o1 o) = shift (fst o1 + fst o2, snd o1 + snd o2) o.
Proof. unfold shift. simpl. f_equal. f_equal; lia. Qed.

(** Translating twice is translating once by the sum of the offsets: when
    the child renders live notes, both render, and they render objects with
    the same positions and colours, in the same order. *)
Theorem Translate_Translate (child : Effect) (o1 o2 : Z * Z) (tick : Z)
    (s : state) (ns : list loc) (s1 : state) (objs : list NoteObj) :
  notes child tick s = Ok (VList ns, s1) ->
  deref s1 ns objs ->
  exists out2 s2 out s',
    notes (Translate (Translate child o1) o2) tick s = Ok (VList out2, s2)
    /\ notes (Translate child (fst o1 + fst o2, snd o1 + snd o2)) tick s
       = Ok (VList out, s')
    /\ exists moved, deref s2 out2 moved /\ deref s' out moved
                     /\ moved = map (shift o2) (map (shift o1) objs).
Proof.
  intros Hchild Hd.
  destruct (Translate_notes_shift_aux child o1 tick s ns s1 objs Hchild Hd)
    as (out1 & s1' & Hinner & Hd1 & _).
  destruct (Translate_notes_shift_aux (Translate child o1) o2 tick s out1 s1'
              (map (shift o1) objs) Hinner Hd1)
    as (out2 & s2 & Houter & Hd2 & _).
  destruct (Translate_notes_shift_aux child (fst o1 + fst o2, snd o1 + snd o2)
              tick s ns s1 objs Hchild Hd)
    as (out & s' & Hsingle & Hd' & _).
  exists out2, s2, out, s'. split; [done|]. split; [done|].
  exists (map (shift o2) (map (shift o1) objs)). split; [done|].
  split; [|done].
  rewrite map_map. erewrite map_ext; [exact Hd'|].
  intros o. apply shift_shift.
Qed.

(** ** What rendering leaves alone *)

(** A successful render changes no [Note] object that existed before it
    (objects are only added), creates and removes no selection cell, leaves
    the generator's sequence as it is, and changes no selection cell other
    than those of the [Random] objects inside the rendered effect. *)
Theorem notes_frame (e : Effect) (tick : Z) (s : state) (v : pyval)
    (s' : state) :
  notes e tick s = Ok (v, s') ->
  (exists added, heap s' = heap s ++ added)
  /\ (forall n o, heap s !! n = Some o -> heap s' !! n = Some o)
  /\ List.length (sel s') = List.length (sel s)
  /\ entropy s' = entropy s
  /\ (forall c, uses_cell c e = false -> sel s' !! c = sel s !! c).
Proof.
  intros Hrun.
  destruct (notes_respects e (fun c => uses_cell c e = false) ltac:(done)
              tick s v s' Hrun) as (Hpre & Hlen & Hent & Hkeep).
  split; [exact Hpre|]. split; [|done].
  intros n o Ho. by eapply prefix_lookup_Some.
Qed.

(** ** Rendering returns live references *)

Lemma frame_length keep s s' :
  frame keep s s' -> (List.length (heap s) <= List.length (heap s'))%nat.
Proof. intros (Hpre & _). by apply prefix_length. Qed.

Lemma notes_heap_grows e tick s v s' :
  notes e tick s = Ok (v, s') ->
  (List.length (heap s) <= List.length (heap s'))%nat.
Proof.
  intros Hrun. eapply (frame_length (fun _ => False)).
  by eapply (notes_respects e (fun _ => False)).
Qed.

Lemma mapM_alloc {A} (f : A -> M loc) (l : list A) :
  (forall a s b s', f a s = Ok (b, s') ->
     heap s `prefix_of` heap s' /\ (b < List.length (heap s'))%nat) ->
  forall s bs s', mapM f l s = Ok (bs, s') ->
    heap s `prefix_of` heap s'
    /\ Forall (fun b => (b < List.length (heap s'))%nat) bs.
Proof.
  intros Hf. induction l as [|a l IH]; intros s bs s' Hrun.
  - injection Hrun as <- <-. split; [done|constructor].
  - cbn [mapM] in Hrun.
    apply bind_Ok in Hrun as (b & s1 & Hstep & Hrun).
    apply bind_Ok in Hrun as (bs' & s2 & Hrest & Hret).
    injection Hret as <- <-.
    apply Hf in Hstep as [Hpre1 Hb]. apply IH in Hrest as [Hpre2 Hbs].
    split; [by etrans|]. constructor; [|done].
    pose proof (prefix_length _ _ Hpre2). lia.
Qed.

Lemma forallb_Forall_lt bound ns :
  forallb (fun l => bool_decide (l < bound)%nat) ns = true ->
  Forall (fun l => (l < bound)%nat) ns.
Proof.
  induction ns as [|n ns IH]; simpl; [constructor|].
  intros [Hn Hns]%andb_prop. constructor; [|auto].
  by apply bool_decide_eq_true in Hn.
Qed.

Lemma forallb_Forall_true {A} (f : A -> bool) (l : list A) :
  forallb f l = true -> Forall (fun x => f x = true) l.
Proof.
  induction l as [|x l IH]; simpl; [constructor|].
  intros [Hx Hl]%andb_prop. constructor; auto.
Qed.

Lemma val_live_bound bound ns s :
  Forall (fun l => (l < bound)%nat) ns ->
  (bound <= List.length (heap s))%nat -> val_live (VList ns) s.
Proof.
  intros Hns Hb. eapply Forall_impl; [exact Hns|]. simpl. lia.
Qed.

Lemma keeps_live_Sequential_notes bound rec effects :
  Forall (fun e => forall tick, keeps_live bound (rec e tick)) effects ->
  forall tick, keeps_live bound (Sequential_notes rec effects tick).
Proof.
  induction 1 as [|e effects He Hall IH]; intros tick; simpl.
  - intros s v s' _ [= <- <-]. exact I.
  - destruct (tick >=? length e); [apply IH|apply He].
Qed.

Lemma keeps_live_Concurrent_notes bound rec tick effects :
  Forall (fun e => keeps_live bound (rec e tick)
                   /\ respects (fun _ => False) (rec e tick)) effects ->
  forall lst s v s',
    (bound <= List.length (heap s))%nat ->
    Forall (fun n => (n < List.length (heap s))%nat) lst ->
    Concurrent_notes rec tick effects lst s = Ok (v, s') -> val_live v s'.
Proof.
  induction 1 as [|e effects [He Hfr] Hall IH]; intros lst s v s' Hb Hlst Hrun.
  - by injection Hrun as <- <-.
  - cbn [Concurrent_notes] in Hrun.
    apply bind_Ok in Hrun as (v1 & s1 & Hchild & Hrun).
    apply bind_Ok in Hrun as (ns & s2 & Hiter & Hrun).
    destruct v1 as [ns'|]; [|done]. injection Hiter as <- <-.
    pose proof (frame_length _ _ _ (Hfr _ _ _ Hchild)) as Hgrow.
    eapply IH; [| |exact Hrun]; [lia|].
    apply Forall_app. split.
    + eapply Forall_impl; [exact Hlst|]. simpl. lia.
    + exact (He _ _ _ Hb Hchild).
Qed.

Lemma keeps_live_at_index bound (f : Effect -> M pyval) effects :
  Forall (fun e => keeps_live bound (f e)) effects ->
  forall i, keeps_live bound (at_index f effects i).
Proof.
  induction 1 as [|e effects He Hall IH]; intros i; simpl.
  - intros s v s' _ [=].
  - destruct i; [apply He|apply IH].
Qed.

Lemma notes_keeps_live (e : Effect) :
  forall bound, live bound e = true ->
  forall tick, keeps_live bound (notes e tick).
Proof.
  induction e as [| self | ns | child offset IH | effects IH | effects IH
                 | child n IH | effect len pad IH | effects cell IH
                 | child low high IH | radius shade len] using Effect_ind;
    intros bound Hlive tick; cbn [notes]; cbn [live] in Hlive.
  - intros s v s' _ [= <- <-]. constructor.
  - intros s v s' Hb [= <- <-]. apply bool_decide_eq_true in Hlive.
    constructor; [lia|constructor].
  - intros s v s' Hb [= <- <-].
    eapply val_live_bound; [by apply forallb_Forall_lt|done].
  - intros s v s' Hb Hrun.
    apply bind_Ok in Hrun as (v1 & s1 & _ & Hrun).
    apply bind_Ok in Hrun as (ns & s2 & _ & Hrun).
    apply bind_Ok in Hrun as (out & s3 & Hmap & Hret).
    injection Hret as <- <-.
    eapply mapM_alloc in Hmap as [_ Hout]; [exact Hout|].
    intros n s0 b s0' Hstep.
    apply bind_Ok in Hstep as (o & s0'' & Hget & Hnew).
    unfold get_note in Hget. destruct (heap s0 !! n); [|done].
    injection Hget as _ <-. injection Hnew as <- <-. simpl.
    split; [by apply prefix_app_r|]. rewrite length_app. simpl. lia.
  - apply keeps_live_Sequential_notes.
    apply forallb_Forall_true in Hlive.
    rewrite Forall_forall in IH, Hlive. apply Forall_forall.
    intros e He tick'. apply IH; auto.
  - intros s v s' Hb Hrun.
    eapply keeps_live_Concurrent_notes; [|exact Hb|constructor|exact Hrun].
    apply forallb_Forall_true in Hlive.
    rewrite Forall_forall in IH, Hlive. apply Forall_forall.
    intros e He. split; [apply IH; auto|by apply notes_respects].
  - intros s v s' Hb Hrun.
    apply bind_Ok in Hrun as (m & s1 & Hmod & Hrun).
    unfold py_mod in Hmod. destruct (length child =? 0); [done|].
    injection Hmod as <- <-. by eapply IH.
  - apply andb_prop in Hlive as [Hchild Hpad].
    destruct (tick <? length effect); [by apply IH|].
    intros s v s' Hb [= <- <-]. destruct pad as [ns|]; [|exact I].
    eapply val_live_bound; [by apply forallb_Forall_lt|done].
  - destruct (Z.of_nat (List.length effects) =? 0).
    { intros s v s' _ [= <- <-]. constructor. }
    intros s v s' Hb Hrun.
    apply bind_Ok in Hrun as ([] & s1 & Hsel & Hrun).
    assert (Hb1 : (bound <= List.length (heap s1))%nat).
    { destruct (tick =? 0).
      - apply (respects_Random_select (fun _ => False)) in Hsel;
          [|by intros []].
        apply frame_length in Hsel. lia.
      - by injection Hsel as <-. }
    apply bind_Ok in Hrun as (cur & s2 & Hget & Hrun).
    unfold get_sel in Hget. destruct (sel s1 !! cell) as [held|]; [|done].
    injection Hget as <- <-. destruct held as [i|]; [|done].
    eapply keeps_live_at_index; [|exact Hb1|exact Hrun].
    apply forallb_Forall_true in Hlive.
    rewrite Forall_forall in IH, Hlive. apply Forall_forall.
    intros e He. cbv beta. destruct (tick >=? length e).
    + intros s0 v0 s0' _ [= <- <-]. constructor.
    + apply IH; auto.
  - intros s v s' Hb Hrun.
    apply bind_Ok in Hrun as (v1 & s1 & _ & Hrun).
    apply bind_Ok in Hrun as (ns & s2 & _ & Hrun).
    apply bind_Ok in Hrun as (out & s3 & Hmap & Hret).
    injection Hret as <- <-.
    eapply mapM_alloc in Hmap as [_ Hout]; [exact Hout|].
    intros n s0 b s0' Hstep.
    apply recolor_step in Hstep as (o & c & _ & _ & -> & Hh & _).
    rewrite Hh. split; [by apply prefix_app_r|].
    rewrite length_app. simpl. lia.
  - destruct (len =? 0); [intros s v s' _ [=]|].
    intros s v s' Hb Hrun.
    apply bind_Ok in Hrun as (out & s3 & Hmap & Hret).
    injection Hret as <- <-.
    eapply mapM_alloc in Hmap as [_ Hout]; [exact Hout|].
    intros p s0 b s0'. cbv beta. case_decide; [done|].
    destruct (shade tick p.1 p.2) as [[[r g] b']|x]; [|done].
    intros [= <- <-]. simpl.
    split; [by apply prefix_app_r|]. rewrite length_app. simpl. lia.
Qed.

(** When every object an effect refers to is in the store, every reference
    that a successful render returns points to an object of the store the
    render leaves: a caller can always read [pos] and [color] of a returned
    note. *)
Theorem notes_returns_live (e : Effect) (bound : nat) (tick : Z) (s : state)
    (ns : list loc) (s' : state) :
  live bound e = true ->
  (bound <= List.length (heap s))%nat ->
  notes e tick s = Ok (VList ns, s') ->
  Forall (fun n => (n < List.length (heap s'))%nat) ns
  /\ exists objs, deref s' ns objs.
Proof.
  intros Hlive Hb Hrun.
  pose proof (notes_keeps_live e bound Hlive tick s _ s' Hb Hrun) as Hns.
  split; [exact Hns|]. by apply deref_live.
Qed.

(** ** Rendering inside the duration never fails *)

Lemma steady_length_nonneg (e : Effect) : steady e = true -> 0 <= length e.
Proof.
  induction e as [| self | ns | child offset IH | effects IH | effects IH
                 | child n IH | effect len pad IH | effects cell IH
                 | child low high IH | radius shade len] using Effect_ind;
    cbn [steady]; intros Hst.
  - done.
  - done.
  - done.
  - cbn [length]. auto.
  - apply Sequential_length_nonneg.
    apply forallb_Forall_true in Hst.
    rewrite Forall_forall in IH, Hst. apply Forall_forall. auto.
  - apply andb_prop in Hst as [Hst _].
    destruct effects as [|e0 rest]; [done|].
    cbn [length]. apply Forall_cons in IH as [IH0 _].
    apply IH0. simpl in Hst. by apply andb_prop in Hst as [? _].
  - apply andb_prop in Hst as [Hc Hn]. cbn [length].
    specialize (IH Hc). lia.
  - apply andb_prop in Hst as [[_ Hlen]%andb_prop _]. cbn [length]. lia.
  - done.
  - apply andb_prop in Hst as [Hc _]. cbn [length]. auto.
  - done.
Qed.

Lemma deepcopy_eq n o s :
  heap s !! n = Some o ->
  deepcopy n s
  = Ok (List.length (heap s),
        MkState (heap s ++ [MkNote (pos o) (color o)])
                (sel s) (entropy s) (draws s)).
Proof. intros Ho. unfold deepcopy, bind, get_note. by rewrite Ho. Qed.

Lemma set_color_eq l o c s :
  heap s !! l = Some o ->
  set_color l c s
  = Ok (tt, MkState (<[l := MkNote (pos o) c]> (heap s))
                    (sel s) (entropy s) (draws s)).
Proof. intros Ho. unfold set_color. by rewrite Ho. Qed.

Lemma recolor_total low high ns : forall s,
  low <= high ->
  Forall (fun n => (n < List.length (heap s))%nat) ns ->
  exists lst s',
    mapM (fun note => new_note_ <- deepcopy note ;;
                      c <- randint low high ;;
                      set_color new_note_ (Palette c) ;;;
                      ret new_note_) ns s = Ok (lst, s').
Proof.
  intros s Hlh. revert s.
  induction ns as [|n ns IH]; intros s Hns; [by eexists _, _|].
  apply Forall_cons in Hns as [Hn Hns].
  destruct (lookup_lt_is_Some_2 _ _ Hn) as [o Ho].
  cbn [mapM].
  assert (Hstep : exists l s1,
    (new_note_ <- deepcopy n ;; c <- randint low high ;;
     set_color new_note_ (Palette c) ;;; ret new_note_) s = Ok (l, s1)).
  { rewrite (bind_eq _ _ _ _ _ (deepcopy_eq n o s Ho)).
    rewrite (bind_eq _ _ _ _ _ (randint_eq low high _ Hlh)).
    erewrite (bind_eq (set_color _ _)); last first.
    { apply set_color_eq. cbn [heap]. by apply list_lookup_middle. }
    by eexists _, _. }
  destruct Hstep as (l & s1 & Hstep). rewrite (bind_eq _ _ _ _ _ Hstep).
  destruct (IH s1) as (lst & s2 & Hrest).
  { pose proof (frame_length _ _ _
                  (respects_recolor (fun _ => False) _ _ _ _ _ _ Hstep)).
    eapply Forall_impl; [exact Hns|]. simpl. lia. }
  rewrite (bind_eq _ _ _ _ _ Hrest). by eexists _, _.
Qed.

Lemma Sequential_notes_total effects s :
  Forall (fun e => 0 <= length e
                   /\ forall tick, 0 <= tick < length e ->
                        exists ns s', notes e tick s = Ok (VList ns, s'))
         effects ->
  forall tick, 0 <= tick < length (Sequential effects) ->
    exists ns s', notes (Sequential effects) tick s = Ok (VList ns, s').
Proof.
  induction 1 as [|e effects [He Hrun] Hall IH]; intros tick Htick.
  - change (length (Sequential [])) with 0 in Htick. lia.
  - rewrite Sequential_length_cons in Htick.
    change (notes (Sequential (e :: effects)) tick s)
      with ((if tick >=? length e
             then notes (Sequential effects) (tick - length e)
             else notes e tick) s).
    destruct (Z.geb_spec tick (length e)).
    + apply IH. lia.
    + apply Hrun. lia.
Qed.

Lemma Concurrent_notes_total bound rec tick effects :
  Forall (fun e => forall s, (bound <= List.length (heap s))%nat ->
            exists ns s', rec e tick s = Ok (VList ns, s')
                          /\ (bound <= List.length (heap s'))%nat) effects ->
  forall lst s, (bound <= List.length (heap s))%nat ->
    exists out s', Concurrent_notes rec tick effects lst s = Ok (VList out, s').
Proof.
  induction 1 as [|e effects He Hall IH]; intros lst s Hb.
  - by eexists _, _.
  - cbn [Concurrent_notes].
    destruct (He s Hb) as (ns & s1 & Hchild & Hb1).
    rewrite (bind_eq _ _ _ _ _ Hchild). cbn [iter_val].
    rewrite (bind_eq (ret ns) _ s1 ns s1 eq_refl).
    by apply IH.
Qed.

Lemma notes_total_aux (e : Effect) :
  forall bound tick s,
    steady e = true -> live bound e = true ->
    (bound <= List.length (heap s))%nat ->
    0 <= tick < length e ->
    exists ns s', notes e tick s = Ok (VList ns, s').
Proof.
  induction e as [| self | ns | child offset IH | effects IH | effects IH
                 | child n IH | effect len pad IH | effects cell IH
                 | child low high IH | radius shade len] using Effect_ind;
    intros bound tick s Hst Hlive Hb Htick;
    cbn [steady] in Hst; cbn [live] in Hlive.
  - by eexists _, _.
  - by eexists _, _.
  - by eexists _, _.
  - destruct (IH bound tick s Hst Hlive Hb Htick) as (ns & s1 & Hchild).
    pose proof (notes_keeps_live child bound Hlive tick s _ s1 Hb Hchild)
      as Hns.
    destruct (deref_live s1 ns Hns) as [objs Hd].
    destruct (Translate_notes_shift_aux child offset tick s ns s1 objs
                Hchild Hd) as (out & s' & Hrun & _).
    by eexists _, _.
  - apply Sequential_notes_total; [|done].
    apply forallb_Forall_true in Hst, Hlive.
    rewrite Forall_forall in IH, Hst, Hlive. apply Forall_forall.
    intros e He. split; [apply steady_length_nonneg; auto|].
    intros tick' Htick'. eapply IH; eauto.
  - apply andb_prop in Hst as [Hst Hsame].
    apply forallb_Forall_true in Hst, Hlive, Hsame.
    rewrite Forall_forall in IH, Hst, Hlive, Hsame.
    cbn [notes]. eapply Concurrent_notes_total; [|exact Hb].
    apply Forall_forall. intros e He s0 Hb0.
    specialize (Hsame e He). apply Z.eqb_eq in Hsame.
    destruct (IH e He bound tick s0 (Hst e He) (Hlive e He) Hb0 ltac:(lia))
      as (ns & s1 & Hchild).
    exists ns, s1. split; [done|].
    pose proof (notes_heap_grows _ _ _ _ _ Hchild). lia.
  - apply andb_prop in Hst as [Hst Hn].
    pose proof (steady_length_nonneg child Hst) as Hlen.
    cbn [length] in Htick.
    assert (0 < length child) by nia.
    cbn [notes]. unfold py_mod, bind.
    destruct (Z.eqb_spec (length child) 0); [lia|]. cbn [ret].
    eapply IH; eauto. by apply Z.mod_pos_bound.
  - apply andb_prop in Hst as [[Hst Hlen]%andb_prop Hpad].
    apply andb_prop in Hlive as [Hlive _].
    cbn [notes]. destruct (Z.ltb_spec tick (length effect)).
    + eapply IH; eauto. lia.
    + destruct pad as [ns|]; [|done]. by eexists _, _.
  - done.
  - apply andb_prop in Hst as [Hst Hlh]. cbn [length] in Htick.
    destruct (IH bound tick s Hst Hlive Hb Htick) as (ns & s1 & Hchild).
    pose proof (notes_keeps_live child bound Hlive tick s _ s1 Hb Hchild)
      as Hns.
    destruct (recolor_total low high ns s1 ltac:(lia) Hns)
      as (lst & s2 & Hmap).
    cbn [notes]. rewrite (bind_eq _ _ _ _ _ Hchild). cbn [iter_val].
    rewrite (bind_eq (ret ns) _ s1 ns s1 eq_refl).
    rewrite (bind_eq _ _ _ _ _ Hmap). by eexists _, _.
  - done.
Qed.

(** Inside its duration, an effect without [Random] and without
    [ColorWheel] whose parts are well formed ([steady]) and whose notes are
    in the store ([live]) always renders: [notes] returns a list, and every
    note of the list can be read. *)
Theorem notes_total (e : Effect) (bound : nat) (tick : Z) (s : state) :
  steady e = true -> live bound e = true ->
  (bound <= List.length (heap s))%nat ->
  0 <= tick < length e ->
  exists ns s' objs, notes e tick s = Ok (VList ns, s') /\ deref s' ns objs.
Proof.
  intros Hst Hlive Hb Htick.
  destruct (notes_total_aux e bound tick s Hst Hlive Hb Htick)
    as (ns & s' & Hrun).
  pose proof (notes_keeps_live e bound Hlive tick s _ s' Hb Hrun) as Hns.
  destruct (deref_live s' ns Hns) as [objs Hd].
  by exists ns, s', objs.
Qed.

Lemma Forall_forallb_true {A} (f : A -> bool) (l : list A) :
  Forall (fun x => f x = true) l -> forallb f l = true.
Proof. induction 1 as [|x l Hx _ IH]; simpl; [done|]. by rewrite Hx, IH. Qed.

Lemma pad_effects_steady effects :
  Forall (fun e => steady e = true) effects ->
  Forall (fun e => steady e = true) (pad_effects effects default_pad).
Proof.
  intros Hst. destruct effects as [|e0 rest]; [constructor|].
  unfold pad_effects.
  destruct (py_max_key_ge length rest e0) as [Hge0 _].
  pose proof (steady_length_nonneg e0 (Forall_inv Hst)) as H0.
  apply Forall_forall. intros w Hw.
  apply list_elem_of_In, in_map_iff in Hw as (e & <- & He).
  apply list_elem_of_In in He. rewrite Forall_forall in Hst.
  destruct (length e <? length (py_max_key length e0 rest)); [|auto].
  cbn [steady default_pad]. rewrite (Hst e He). simpl.
  rewrite andb_true_r. apply Z.leb_le. lia.
Qed.

Lemma pad_effects_live bound effects :
  Forall (fun e => live bound e = true) effects ->
  Forall (fun e => live bound e = true) (pad_effects effects default_pad).
Proof.
  intros Hlive. destruct effects as [|e0 rest]; [constructor|].
  unfold pad_effects. apply Forall_forall. intros w Hw.
  apply list_elem_of_In, in_map_iff in Hw as (e & <- & He).
  apply list_elem_of_In in He. rewrite Forall_forall in Hlive.
  destruct (length e <? length (py_max_key length e0 rest)); [|auto].
  cbn [live default_pad]. rewrite (Hlive e He). done.
Qed.

Lemma Concurrent_init_steady_live bound effects :
  Forall (fun e => steady e = true) effects ->
  Forall (fun e => live bound e = true) effects ->
  steady (Concurrent_init effects) = true
  /\ live bound (Concurrent_init effects) = true.
Proof.
  intros Hst Hlive. unfold Concurrent_init. cbn [steady live]. split.
  - apply andb_true_intro. split.
    + by apply Forall_forallb_true, pad_effects_steady.
    + apply Forall_forallb_true.
      destruct effects as [|e0 rest]; [constructor|].
      pose proof (pad_effects_uniform (e0 :: rest) default_pad e0 rest eq_refl)
        as Huni.
      destruct (pad_effects (e0 :: rest) default_pad) as [|w0 ws] eqn:Hpad;
        [constructor|].
      cbn [length]. pose proof (Forall_inv Huni) as Hw0. simpl in Hw0.
      eapply Forall_impl; [exact Huni|]. simpl. intros w Hw.
      apply Z.eqb_eq. congruence.
  - by apply Forall_forallb_true, pad_effects_live.
Qed.

(** A [Concurrent] built by its constructor from well-formed children
    without [Random] and without [ColorWheel] renders at every tick of its
    own duration, the greatest of the children's durations: padding makes
    the shorter children render nothing after their end instead of
    failing. *)
Theorem Concurrent_init_total (effects : list Effect) (bound : nat)
    (tick : Z) (s : state) :
  Forall (fun e => steady e = true) effects ->
  Forall (fun e => live bound e = true) effects ->
  (bound <= List.length (heap s))%nat ->
  0 <= tick < length (Concurrent_init effects) ->
  Forall (fun e => length e <= length (Concurrent_init effects)) effects
  /\ exists ns s' objs,
       notes (Concurrent_init effects) tick s = Ok (VList ns, s')
       /\ deref s' ns objs.
Proof.
  intros Hst Hlive Hb Htick. split.
  - destruct effects as [|e0 rest]; [constructor|].
    pose proof (pad_effects_uniform (e0 :: rest) default_pad e0 rest eq_refl)
      as Huni.
    destruct (py_max_key_ge length rest e0) as [Hge0 Hge].
    unfold Concurrent_init.
    destruct (pad_effects (e0 :: rest) default_pad) as [|w0 ws] eqn:Hpad;
      [discriminate|].
    cbn [length]. rewrite (Forall_inv Huni). by constructor.
  - destruct (Concurrent_init_steady_live bound effects Hst Hlive)
      as [Hst' Hlive'].
    destruct (notes_total_aux _ bound tick s Hst' Hlive' Hb Htick)
      as (ns & s' & Hrun).
    pose proof (notes_keeps_live _ bound Hlive' tick s _ s' Hb Hrun) as Hns.
    destruct (deref_live s' ns Hns) as [objs Hd].
    by exists ns, s', objs.
Qed.

(** ** Drawing keeps the size of the buffer *)

Lemma plot_length o b : List.length (plot o b) = List.length b.
Proof.
  unfold plot. destruct (pos o) as [x y].
  case_match; [by rewrite length_insert|done].
Qed.

Lemma draw_notes_length ns : forall b s b' s',
  draw_notes ns b s = Ok (b', s') ->
  List.length b' = List.length b /\ s' = s.
Proof.
  induction ns as [|n ns IH]; intros b s b' s' Hrun.
  - by injection Hrun as <- <-.
  - cbn [draw_notes] in Hrun.
    apply bind_Ok in Hrun as (o & s1 & Hget & Hrun).
    unfold get_note in Hget. destruct (heap s !! n); [|done].
    injection Hget as <- <-.
    apply IH in Hrun as [Hlen ->]. by rewrite Hlen, plot_length.
Qed.

Lemma get_note_eq n o s : heap s !! n = Some o -> get_note n s = Ok (o, s).
Proof. intros Ho. unfold get_note. by rewrite Ho. Qed.

(** ** The buffers during a session *)

Lemma draw_effect_buffers e i lp s lp' s' :
  draw_effect e i lp s = Ok (lp', s') ->
  List.length (buf lp') = List.length (buf lp)
  /\ back_buf lp' = back_buf lp /\ port lp' = port lp.
Proof.
  intros Hrun. unfold draw_effect in Hrun.
  apply bind_Ok in Hrun as (v & s1 & _ & Hrun).
  apply bind_Ok in Hrun as (ns & s2 & _ & Hrun).
  apply bind_Ok in Hrun as (b & s3 & Hdraw & Hret).
  injection Hret as <- <-. simpl.
  by apply draw_notes_length in Hdraw as [-> _].
Qed.

Lemma play_tick_buffers e i lp s lp' s' :
  play_tick e i lp s = Ok (lp', s') ->
  List.length (buf lp') = List.length (back_buf lp)
  /\ back_buf lp' = buf lp.
Proof.
  intros Hrun. unfold play_tick in Hrun.
  apply bind_Ok in Hrun as (drawn & s1 & Hdraw & Hret).
  injection Hret as <- <-.
  apply draw_effect_buffers in Hdraw as (Hlen & Hback & _). simpl.
  rewrite Hlen, Hback. simpl. by rewrite length_replicate.
Qed.

Lemma play_ticks_buffers e size : forall n i lp s lp' s',
  List.length (buf lp) = size -> List.length (back_buf lp) = size ->
  play_ticks e n i lp s = Ok (lp', s') ->
  List.length (buf lp') = size /\ List.length (back_buf lp') = size.
Proof.
  induction n as [|n IH]; intros i lp s lp' s' Hbuf Hback Hrun.
  - by injection Hrun as <- <-.
  - cbn [play_ticks] in Hrun.
    apply bind_Ok in Hrun as (lp1 & s1 & Htick & Hrun).
    apply play_tick_buffers in Htick as [Hlen1 Hback1].
    eapply IH; [| |exact Hrun]; congruence.
Qed.

(** The two buffers keep their size through a whole session: started with
    two buffers of [size] cells (100 for a new [Launchpad]), [play] ends with
    two buffers of [size] cells, the current one all off, the previous one
    holding the frame of the last tick; every message of the final pass is a
    [note_on] with velocity 0, one for each cell that the last frame left
    with another colour than 0. *)
Theorem play_final_pass (e : Effect) (bpm : Qc) (lp : Launchpad) (s : state)
    (lp' : Launchpad) (s' : state) (size : nat) :
  List.length (buf lp) = size -> List.length (back_buf lp) = size ->
  play e bpm lp s = Ok (lp', s') ->
  buf lp' = replicate size (Palette 0)
  /\ List.length (back_buf lp') = size
  /\ exists last final,
       play_ticks e (Z.to_nat (length e)) 0 lp s = Ok (last, s')
       /\ back_buf lp' = buf last
       /\ port lp' = port last ++ final
       /\ (forall m, m ∈ final <->
             exists (n : nat) c, buf last !! n = Some c /\ c <> Palette 0
                                 /\ m = note_on (Z.of_nat n) 0)
       /\ (forall n : nat,
             List.length (filter (fun m => cell_of m = Z.of_nat n) final) <= 1)%nat.
Proof.
  intros Hbuf Hback Hrun. unfold play in Hrun.
  case_decide; [done|].
  apply bind_Ok in Hrun as (last & s1 & Hticks & Hret).
  injection Hret as <- <-.
  destruct (play_ticks_buffers e size _ _ _ _ _ _ Hbuf Hback Hticks)
    as [Hbuf1 Hback1].
  cbn [write_buf reset_buf buf back_buf port]. rewrite Hback1.
  split; [done|]. split; [done|].
  exists last, (diff_events 0 (zip (replicate size (Palette 0)) (buf last))).
  do 3 (split; [done|]). split.
  - intros m. split.
    + intros Hm.
      apply diff_events_elem in Hm as (n & c & bc & Hn & Hne & ->).
      apply lookup_zip_with_Some in Hn as (c' & bc' & [= <- <-] & Hc & Hbc).
      apply lookup_replicate in Hc as [-> _].
      exists n, bc. by rewrite Z.add_0_l.
    + intros (n & c & Hc & Hne & ->).
      pose proof (lookup_lt_Some _ _ _ Hc) as Hlt.
      assert (Hcell : zip (replicate size (Palette 0)) (buf last) !! n
                      = Some (Palette 0, c)).
      { apply lookup_zip_with_Some. exists (Palette 0), c.
        split; [done|]. split; [|done].
        apply lookup_replicate. split; [done|lia]. }
      pose proof (diff_events_filter 0 _ n _ _ Hcell) as Hf.
      rewrite decide_False, Z.add_0_l in Hf by done.
      assert (Hin : note_on (Z.of_nat n) 0
                    ∈ filter (fun m => cell_of m = Z.of_nat n)
                        (diff_events 0
                           (zip (replicate size (Palette 0)) (buf last)))).
      { rewrite Hf. simpl. apply list_elem_of_here. }
      by apply list_elem_of_filter in Hin as [_ Hin].
  - intros n.
    destruct (zip (replicate size (Palette 0)) (buf last) !! n)
      as [[c bc]|] eqn:Hcell.
    + pose proof (diff_events_filter 0 _ n _ _ Hcell) as Hf.
      rewrite Z.add_0_l in Hf. rewrite Hf. case_decide; simpl; lia.
    + destruct (filter _ _) as [|m rest] eqn:Hf; [simpl; lia|].
      assert (Hm : m ∈ m :: rest) by apply list_elem_of_here.
      rewrite <- Hf in Hm. apply list_elem_of_filter in Hm as [Hcellm Hm].
      apply diff_events_elem in Hm as (i & c & bc & Hi & _ & ->).
      rewrite cell_of_update_event in Hcellm.
      assert (i = n) as -> by lia. congruence.
Qed.

(** ** Drawing: the last note of a cell wins *)

Lemma draw_notes_deref s ns objs : forall b,
  deref s ns objs ->
  draw_notes ns b s = Ok (foldl (fun b o => plot o b) b objs, s).
Proof.
  intros b Hd. revert b.
  induction Hd as [|n o ns objs Ho Hd IH]; intros b; [done|].
  cbn [draw_notes]. rewrite (bind_eq _ _ _ _ _ (get_note_eq n o s Ho)).
  apply IH.
Qed.

Lemma plot_lookup_hit o b :
  0 <= midi_note_of (pos o) < Z.of_nat (List.length b) ->
  plot o b !! Z.to_nat (midi_note_of (pos o)) = Some (color o).
Proof.
  intros H. rewrite plot_written by done.
  apply list_lookup_insert_eq. lia.
Qed.

Lemma plot_lookup_miss o b (i : nat) :
  midi_note_of (pos o) <> Z.of_nat i -> plot o b !! i = b !! i.
Proof.
  intros Hne.
  destruct (decide (0 <= midi_note_of (pos o) < Z.of_nat (List.length b)))
    as [Hin|Hout].
  - rewrite plot_written by done. apply list_lookup_insert_ne. lia.
  - rewrite plot_dropped by lia. done.
Qed.

Lemma foldl_plot_length objs : forall b,
  List.length (foldl (fun b o => plot o b) b objs) = List.length b.
Proof.
  induction objs as [|o objs IH]; intros b; [done|].
  simpl. by rewrite IH, plot_length.
Qed.

Lemma foldl_plot_miss objs (i : nat) : forall b,
  Forall (fun o => midi_note_of (pos o) <> Z.of_nat i) objs ->
  foldl (fun b o => plot o b) b objs !! i = b !! i.
Proof.
  induction objs as [|o objs IH]; intros b Hall; [done|].
  apply Forall_cons in Hall as [Ho Hall]. simpl.
  rewrite IH by done. by apply plot_lookup_miss.
Qed.

(** [draw_effect] writes the notes in the order of the list: the buffer
    keeps its size; a cell that no note addresses keeps its colour; a cell
    addressed by a note holds the colour of the last note of the list that
    addresses it. *)
Theorem draw_notes_last_wins (ns : list loc) (objs : list NoteObj)
    (b : list Color) (s : state) :
  deref s ns objs ->
  exists b',
    draw_notes ns b s = Ok (b', s)
    /\ List.length b' = List.length b
    /\ (forall i : nat,
          Forall (fun o => midi_note_of (pos o) <> Z.of_nat i) objs ->
          b' !! i = b !! i)
    /\ (forall before o after,
          objs = before ++ o :: after ->
          0 <= midi_note_of (pos o) < Z.of_nat (List.length b) ->
          Forall (fun o' => midi_note_of (pos o') <> midi_note_of (pos o))
                 after ->
          b' !! Z.to_nat (midi_note_of (pos o)) = Some (color o)).
Proof.
  intros Hd. eexists. split; [by apply draw_notes_deref|].
  split; [apply foldl_plot_length|].
  split; [intros i; apply foldl_plot_miss|].
  intros before o after -> Hin Hafter.
  rewrite foldl_app. simpl.
  rewrite foldl_plot_miss.
  - apply plot_lookup_hit. by rewrite foldl_plot_length.
  - eapply Forall_impl; [exact Hafter|]. simpl. lia.
Qed.

(** ** [Fullscreen] and [Clear] *)

Lemma foldl_plot_const c objs (i : nat) : forall b,
  Forall (fun o => color o = c) objs ->
  (i < List.length b)%nat ->
  b !! i = Some c \/ Exists (fun o => midi_note_of (pos o) = Z.of_nat i) objs ->
  foldl (fun b o => plot o b) b objs !! i = Some c.
Proof.
  induction objs as [|o objs IH]; intros b Hcol Hi Hhit.
  - destruct Hhit as [Hb|Hex]; [done|by apply Exists_nil in Hex].
  - apply Forall_cons in Hcol as [Ho Hcol]. simpl.
    apply IH; [done|by rewrite plot_length|].
    destruct (decide (midi_note_of (pos o) = Z.of_nat i)) as [Heq|Hne].
    + left. replace i with (Z.to_nat (midi_note_of (pos o))) by lia.
      rewrite <- Ho. apply plot_lookup_hit. lia.
    + destruct Hhit as [Hb|Hex].
      * left. by rewrite plot_lookup_miss.
      * apply Exists_cons in Hex as [Hex|Hex]; [done|by right].
Qed.

Lemma Rectangle_draw_box c box tick lp s :
  (e <- (ns <- mapM (fun p => new_note p c) box ;; ret (Rectangle ns)) ;;
   draw_effect e tick lp) s
  = Ok (MkLaunchpad
          (foldl (fun b o => plot o b) (buf lp) (map (fun p => MkNote p c) box))
          (back_buf lp) (port lp),
        MkState (heap s ++ map (fun p => MkNote p c) box)
                (sel s) (entropy s) (draws s)).
Proof.
  erewrite bind_eq; last first.
  { rewrite (bind_eq _ _ _ _ _ (mapM_new_note c box s)). reflexivity. }
  unfold draw_effect. cbn [notes].
  erewrite (bind_eq (ret _)) by reflexivity. cbn [iter_val].
  erewrite (bind_eq (ret _)) by reflexivity.
  erewrite bind_eq; last first.
  { apply draw_notes_deref. rewrite <- (length_map (fun p => MkNote p c) box).
    apply deref_seq_app. }
  reflexivity.
Qed.

(** Drawing [Fullscreen(color)] on a buffer of 100 cells sets every cell to
    [color]; in particular drawing [Clear()] turns every cell off. *)
Theorem Fullscreen_fills (c : Color) (tick : Z) (lp : Launchpad) (s : state) :
  List.length (buf lp) = 100%nat ->
  exists lp' s',
    (e <- Fullscreen c ;; draw_effect e tick lp) s = Ok (lp', s')
    /\ buf lp' = replicate 100 c
    /\ back_buf lp' = back_buf lp /\ port lp' = port lp.
Proof.
  intros Hlen.
  eexists _, _. split.
  { unfold Fullscreen, Rectangle_init. apply Rectangle_draw_box. }
  cbn [buf back_buf port fst snd]. split; [|done].
  generalize (elem_of_grid (-1) (8 + 1) (-1) (8 + 1)).
  generalize (grid (-1) (8 + 1) (-1) (8 + 1)). intros box Hbox.
  apply list_eq. intros i.
  destruct (decide (i < 100)%nat) as [Hi|Hi].
  - rewrite (lookup_replicate_2 _ _ _ Hi).
    apply foldl_plot_const; [|lia|right].
    + apply Forall_forall. intros o Ho.
      apply list_elem_of_In, in_map_iff in Ho as (p & <- & _). done.
    + apply Exists_exists.
      exists (MkNote (Z.of_nat i mod 10 - 1, Z.of_nat i / 10 - 1) c).
      pose proof (Z.div_mod (Z.of_nat i) 10 ltac:(lia)).
      pose proof (Z.mod_pos_bound (Z.of_nat i) 10 ltac:(lia)).
      split.
      * apply list_elem_of_In, in_map_iff. eexists. split; [reflexivity|].
        apply list_elem_of_In, Hbox. lia.
      * unfold midi_note_of. cbn [pos fst snd]. lia.
  - rewrite (proj1 (lookup_replicate_None _ _ _)) by lia.
    apply lookup_ge_None. rewrite foldl_plot_length. lia.
Qed.

(** ** Nothing to send *)

Lemma diff_events_same k b : diff_events k (zip b b) = [].
Proof.
  revert k. induction b as [|c b IH]; intros k; [done|].
  simpl. by rewrite decide_True, IH.
Qed.

(** [write_buf] sends nothing when the two buffers hold the same colours,
    and a session over an effect of duration 0 or less, started with both
    buffers off, sends no message at all. *)
Theorem play_nothing_to_send (e : Effect) (bpm : Qc) (lp : Launchpad)
    (s : state) (size : nat) :
  (buf lp = back_buf lp -> port (write_buf lp) = port lp)
  /\ (length e <= 0 -> bpm <> Q2Qc 0 ->
      buf lp = replicate size (Palette 0) ->
      back_buf lp = replicate size (Palette 0) ->
      play e bpm lp s = Ok (lp, s)).
Proof.
  split.
  - intros Heq. cbn [write_buf port]. rewrite Heq, diff_events_same.
    apply app_nil_r.
  - intros Hlen Hbpm Hbuf Hback. unfold play. rewrite decide_False by done.
    replace (Z.to_nat (length e)) with 0%nat by lia.
    cbn [play_ticks]. rewrite (bind_eq (ret lp) _ s lp s eq_refl).
    unfold ret, write_buf, reset_buf. cbn [buf back_buf port].
    rewrite Hback, Hbuf, length_replicate, diff_events_same, app_nil_r.
    destruct lp as [b bb p]. simpl in *. by subst.
Qed.

(** ** The order of the messages *)

Lemma diff_events_increasing cells : forall k (i j : nat) m1 m2,
  diff_events k cells !! i = Some m1 ->
  diff_events k cells !! j = Some m2 ->
  (i < j)%nat -> cell_of m1 < cell_of m2.
Proof.
  induction cells as [|[c bc] cells IH]; intros k i j m1 m2 H1 H2 Hij;
    [done|].
  cbn [diff_events] in H1, H2.
  destruct (decide (c = bc)); [by eapply IH|].
  cbn [app] in H1, H2.
  destruct j as [|j]; [lia|]. cbn in H2.
  destruct i as [|i]; cbn in H1.
  - injection H1 as <-. rewrite cell_of_update_event.
    apply list_elem_of_lookup_2, diff_events_elem in H2
      as (idx & c' & bc' & _ & _ & ->).
    rewrite cell_of_update_event. lia.
  - eapply IH; [exact H1|exact H2|lia].
Qed.

(** [write_buf] sends its messages in increasing order of the cell they
    address, so no cell is addressed twice in one pass. *)
Theorem write_buf_increasing (lp : Launchpad) (i j : nat) (m1 m2 : Message) :
  (i < j)%nat ->
  drop (List.length (port lp)) (port (write_buf lp)) !! i = Some m1 ->
  drop (List.length (port lp)) (port (write_buf lp)) !! j = Some m2 ->
  cell_of m1 < cell_of m2.
Proof.
  intros Hij. cbn [write_buf port]. rewrite drop_app_length.
  intros H1 H2. by eapply diff_events_increasing.
Qed.

(** ** [Random] between selections *)

Lemma at_index_lookup {A} (f : Effect -> M A) effects (i : nat) e :
  effects !! i = Some e -> at_index f effects i = f e.
Proof.
  revert i. induction effects as [|e0 effects IH]; intros i Hi; [done|].
  destruct i as [|i]; simpl in *; [by injection Hi as ->|by apply IH].
Qed.

Lemma at_index_out_of_range {A} (f : Effect -> M A) effects (i : nat) s :
  (List.length effects <= i)%nat -> at_index f effects i s = Raise IndexError.
Proof.
  revert i. induction effects as [|e0 effects IH]; intros i Hi; [done|].
  destruct i as [|i]; simpl in *; [lia|apply IH; lia].
Qed.

(** A [Random] without children has duration 0 and renders the empty list
    at every tick without touching its state.  With children, at a tick
    other than 0 nothing is drawn from the generator: when no child was ever
    selected the render raises [TypeError]; when the child [e] at index [i]
    is held, the render is the render of [e], or the empty list from the end
    of [e] on. *)
Theorem Random_notes_held (effects : list Effect) (cell : loc) (tick : Z)
    (s : state) :
  (effects = [] ->
     length (Random effects cell) = 0
     /\ notes (Random effects cell) tick s = Ok (VList [], s))
  /\ (effects <> [] -> tick <> 0 -> sel s !! cell = Some None ->
        notes (Random effects cell) tick s = Raise TypeError)
  /\ (forall i e, tick <> 0 -> sel s !! cell = Some (Some i) -> 0 <= i ->
        effects !! Z.to_nat i = Some e ->
        notes (Random effects cell) tick s
        = if tick >=? length e then Ok (VList [], s) else notes e tick s).
Proof.
  split; [by intros ->|]. split.
  - intros Hne Htick Hcell. cbn [notes].
    destruct (Z.eqb_spec (Z.of_nat (List.length effects)) 0) as [Hz|_].
    { destruct effects; [done|simpl in Hz; lia]. }
    destruct (Z.eqb_spec tick 0); [done|].
    rewrite (bind_eq (ret tt) _ s tt s eq_refl).
    by rewrite (bind_eq _ _ _ _ _ (get_sel_eq _ _ _ Hcell)).
  - intros i e Htick Hcell Hi He. cbn [notes].
    pose proof (lookup_lt_Some _ _ _ He) as Hlt.
    destruct (Z.eqb_spec (Z.of_nat (List.length effects)) 0) as [Hz|_]; [lia|].
    destruct (Z.eqb_spec tick 0); [done|].
    rewrite (bind_eq (ret tt) _ s tt s eq_refl).
    rewrite (bind_eq _ _ _ _ _ (get_sel_eq _ _ _ Hcell)).
    unfold py_index. destruct (Z.leb_spec 0 i); [|lia].
    rewrite (at_index_lookup _ _ _ _ He).
    by destruct (tick >=? length e).
Qed.

(** ** Rendering without randomness *)

Lemma quiet_ret {A} (a : A) : quiet (ret a).
Proof. by intros s a' s' [= _ <-]. Qed.

Lemma quiet_raise {A} e : quiet (@raise A e).
Proof. intros s a s' [=]. Qed.

Lemma quiet_bind {A B} (m : M A) (k : A -> M B) :
  quiet m -> (forall a, quiet (k a)) -> quiet (bind m k).
Proof.
  intros Hm Hk s b s' Hrun.
  apply bind_Ok in Hrun as (a & s1 & H1 & H2).
  destruct (Hm _ _ _ H1) as [Hs1 Hd1]. destruct (Hk _ _ _ _ H2) as [Hs2 Hd2].
  split; congruence.
Qed.

Lemma quiet_mapM {A B} (f : A -> M B) (l : list A) :
  (forall a, quiet (f a)) -> quiet (mapM f l).
Proof.
  intros Hf. induction l as [|a l IH]; simpl; [apply quiet_ret|].
  apply quiet_bind; [apply Hf|]. intros b.
  apply quiet_bind; [apply IH|]. intros bs. apply quiet_ret.
Qed.

Lemma quiet_new_note p c : quiet (new_note p c).
Proof. by intros s l s' [= _ <-]. Qed.

Lemma quiet_get_note l : quiet (get_note l).
Proof.
  intros s o s'. unfold get_note. destruct (heap s !! l); [|done].
  by intros [= _ <-].
Qed.

Lemma quiet_iter_val v : quiet (iter_val v).
Proof. destruct v; [apply quiet_ret|apply quiet_raise]. Qed.

Lemma quiet_Sequential_notes rec effects :
  Forall (fun e => forall tick, quiet (rec e tick)) effects ->
  forall tick, quiet (Sequential_notes rec effects tick).
Proof.
  induction 1 as [|e effects He Hall IH]; intros tick; simpl.
  - apply quiet_ret.
  - destruct (tick >=? length e); [apply IH|apply He].
Qed.

Lemma quiet_Concurrent_notes rec tick effects :
  Forall (fun e => quiet (rec e tick)) effects ->
  forall lst, quiet (Concurrent_notes rec tick effects lst).
Proof.
  induction 1 as [|e effects He Hall IH]; intros lst; simpl.
  - apply quiet_ret.
  - apply quiet_bind; [apply He|]. intros v.
    apply quiet_bind; [apply quiet_iter_val|]. intros ns. apply IH.
Qed.

Lemma notes_quiet (e : Effect) :
  deterministic e = true -> forall tick, quiet (notes e tick).
Proof.
  induction e as [| self | ns | child offset IH | effects IH | effects IH
                 | child n IH | effect len pad IH | effects cell IH
                 | child low high IH | radius shade len] using Effect_ind;
    cbn [deterministic]; intros Hdet tick; cbn [notes].
  - apply quiet_ret.
  - apply quiet_ret.
  - apply quiet_ret.
  - apply quiet_bind; [by apply IH|]. intros v.
    apply quiet_bind; [apply quiet_iter_val|]. intros ns.
    apply quiet_bind; [|intros; apply quiet_ret].
    apply quiet_mapM. intros n.
    apply quiet_bind; [apply quiet_get_note|]. intros o. apply quiet_new_note.
  - apply quiet_Sequential_notes.
    apply forallb_Forall_true in Hdet.
    rewrite Forall_forall in IH, Hdet. apply Forall_forall. auto.
  - apply quiet_Concurrent_notes.
    apply forallb_Forall_true in Hdet.
    rewrite Forall_forall in IH, Hdet. apply Forall_forall. auto.
  - apply quiet_bind; [|intros m; by apply IH].
    unfold py_mod. destruct (length child =? 0);
      [apply quiet_raise|apply quiet_ret].
  - destruct (tick <? length effect); [by apply IH|apply quiet_ret].
  - done.
  - done.
  - destruct (len =? 0); [apply quiet_raise|].
    apply quiet_bind; [|intros; apply quiet_ret].
    apply quiet_mapM. intros p. case_decide; [apply quiet_raise|].
    destruct (shade tick p.1 p.2) as [[[r g] b]|x];
      [apply quiet_new_note|apply quiet_raise].
Qed.

Lemma agree_sym bound s t : agree bound s t -> agree bound t s.
Proof. intros (Hs & Ht & Heq). by repeat split. Qed.

Lemma agree_grow bound s s' t :
  agree bound s t -> heap s `prefix_of` heap s' -> agree bound s' t.
Proof.
  intros (Hs & Ht & Heq) [added Hadd].
  split; [rewrite Hadd, length_app; lia|]. split; [done|].
  by rewrite Hadd, take_app_le.
Qed.

Lemma agree_grow_both bound s s' t t' :
  agree bound s t -> heap s `prefix_of` heap s' -> heap t `prefix_of` heap t' ->
  agree bound s' t'.
Proof.
  intros Hag Hs Ht. eapply agree_grow; [|exact Hs].
  apply agree_sym. eapply agree_grow; [|exact Ht]. by apply agree_sym.
Qed.

Lemma agree_deref bound s t ns :
  agree bound s t -> Forall (fun n => (n < bound)%nat) ns ->
  exists objs, deref s ns objs /\ deref t ns objs.
Proof.
  intros (Hs & Ht & Heq). induction 1 as [|n ns Hn _ [objs [IHs IHt]]].
  - exists []. split; constructor.
  - destruct (lookup_lt_is_Some_2 (heap s) n ltac:(lia)) as [o Ho].
    exists (o :: objs). split; constructor; try done.
    rewrite <- (lookup_take_lt _ bound n), <- Heq, lookup_take_lt; done.
Qed.

Lemma notes_prefix e tick s v s' :
  notes e tick s = Ok (v, s') -> heap s `prefix_of` heap s'.
Proof.
  intros Hrun. by destruct (notes_respects e (fun _ => False) ltac:(done)
                              tick s v s' Hrun).
Qed.

Lemma same_render_Sequential_notes bound rec effects :
  Forall (fun e => forall tick, same_render bound (rec e tick)) effects ->
  forall tick, same_render bound (Sequential_notes rec effects tick).
Proof.
  induction 1 as [|e effects He Hall IH]; intros tick; simpl.
  - intros s t ns s' nt t' _ [=].
  - destruct (tick >=? length e); [apply IH|apply He].
Qed.

Lemma same_render_Concurrent_notes bound rec tick effects :
  Forall (fun e => same_render bound (rec e tick)
                   /\ respects (fun _ => False) (rec e tick)) effects ->
  forall lst lst' acc s t ns s' nt t',
    agree bound s t -> deref s lst acc -> deref t lst' acc ->
    Concurrent_notes rec tick effects lst s = Ok (VList ns, s') ->
    Concurrent_notes rec tick effects lst' t = Ok (VList nt, t') ->
    exists objs, deref s' ns objs /\ deref t' nt objs.
Proof.
  induction 1 as [|e effects [He Hfr] Hall IH];
    intros lst lst' acc s t ns s' nt t' Hag Hls Hlt Hs Ht.
  - injection Hs as <- <-. injection Ht as <- <-. by exists acc.
  - cbn [Concurrent_notes] in Hs, Ht.
    apply bind_Ok in Hs as (v1 & s1 & Hcs & Hs).
    apply bind_Ok in Hs as (n1 & s1' & Hi1 & Hs).
    destruct v1 as [n1'|]; [|done]. injection Hi1 as <- <-.
    apply bind_Ok in Ht as (v2 & t1 & Hct & Ht).
    apply bind_Ok in Ht as (n2 & t1' & Hi2 & Ht).
    destruct v2 as [n2'|]; [|done]. injection Hi2 as <- <-.
    destruct (He _ _ _ _ _ _ Hag Hcs Hct) as (objs1 & Hd1 & Hd2).
    destruct (Hfr _ _ _ Hcs) as (Hps & _). destruct (Hfr _ _ _ Hct) as (Hpt & _).
    eapply (IH _ _ (acc ++ objs1)); [| | |exact Hs|exact Ht].
    + by eapply agree_grow_both.
    + apply Forall2_app; [by eapply deref_extend|done].
    + apply Forall2_app; [by eapply deref_extend|done].
Qed.

Lemma ColorWheel_objs (radius : Qc)
    (shade : Z -> Z -> Z -> result (Qc * Qc * Qc)) (tick : Z) ps :
  forall s out s',
  mapM (fun p : Z * Z =>
          if decide (radius = Q2Qc 0) then raise ZeroDivisionError
          else match shade tick (fst p) (snd p) with
               | Ok (r, g, b) => new_note p (RGB r g b)
               | Raise e => raise e
               end) ps s = Ok (out, s') ->
  heap s `prefix_of` heap s'
  /\ deref s' out
       (omap (fun p => match shade tick (fst p) (snd p) with
                       | Ok (r, g, b) => Some (MkNote p (RGB r g b))
                       | Raise _ => None
                       end) ps).
Proof.
  induction ps as [|p ps IH]; intros s out s' Hrun.
  - injection Hrun as <- <-. split; [done|constructor].
  - cbn [mapM] in Hrun.
    apply bind_Ok in Hrun as (l & s1 & Hstep & Hrun).
    apply bind_Ok in Hrun as (ls & s2 & Hrest & Hret).
    injection Hret as <- <-.
    case_decide; [done|].
    apply IH in Hrest as [Hpre Hd].
    destruct (shade tick p.1 p.2) as [[[r g] b]|x] eqn:Hsh; [|done].
    injection Hstep as <- <-. simpl in Hpre. csimpl. rewrite Hsh. split.
    + etrans; [|exact Hpre]. by apply prefix_app_r.
    + constructor; [|done].
      eapply prefix_lookup_Some; [|exact Hpre]. by apply list_lookup_middle.
Qed.

Lemma notes_same_render (e : Effect) :
  forall bound, deterministic e = true -> live bound e = true ->
  forall tick, same_render bound (notes e tick).
Proof.
  induction e as [| self | ns0 | child offset IH | effects IH | effects IH
                 | child n IH | effect len pad IH | effects cell IH
                 | child low high IH | radius shade len] using Effect_ind;
    intros bound Hdet Hlive tick; cbn [deterministic] in Hdet;
    cbn [live] in Hlive; cbn [notes].
  - intros s t ns s' nt t' _ [= <- <-] [= <- <-]. exists []. split; constructor.
  - intros s t ns s' nt t' Hag [= <- <-] [= <- <-].
    apply bool_decide_eq_true in Hlive.
    apply (agree_deref bound); [done|]. by repeat constructor.
  - intros s t ns s' nt t' Hag [= <- <-] [= <- <-].
    apply (agree_deref bound); [done|]. by apply forallb_Forall_lt.
  - intros s t ns s' nt t' Hag Hs Ht.
    pose proof Hs as Hs0. pose proof Ht as Ht0.
    apply bind_Ok in Hs as (v1 & s1 & Hcs & Hs).
    apply bind_Ok in Hs as (n1 & s1' & Hi1 & _).
    destruct v1 as [n1'|]; [|done]. injection Hi1 as <- <-.
    apply bind_Ok in Ht as (v2 & t1 & Hct & Ht).
    apply bind_Ok in Ht as (n2 & t1' & Hi2 & _).
    destruct v2 as [n2'|]; [|done]. injection Hi2 as <- <-.
    destruct (IH bound Hdet Hlive tick _ _ _ _ _ _ Hag Hcs Hct)
      as (objs & Hd1 & Hd2).
    destruct (Translate_notes_shift_aux child offset tick s _ _ _ Hcs Hd1)
      as (out1 & s2 & Hrun1 & Hout1 & _).
    destruct (Translate_notes_shift_aux child offset tick t _ _ _ Hct Hd2)
      as (out2 & t2 & Hrun2 & Hout2 & _).
    cbn [notes] in Hrun1, Hrun2.
    rewrite Hs0 in Hrun1. rewrite Ht0 in Hrun2.
    injection Hrun1 as <- <-. injection Hrun2 as <- <-.
    by eexists.
  - apply same_render_Sequential_notes.
    apply forallb_Forall_true in Hdet, Hlive.
    rewrite Forall_forall in IH, Hdet, Hlive. apply Forall_forall.
    intros e He tick'. apply IH; auto.
  - intros s t ns s' nt t' Hag Hs Ht.
    eapply (same_render_Concurrent_notes bound notes tick effects);
      [|exact Hag| | |exact Hs|exact Ht]; [|constructor|constructor].
    apply forallb_Forall_true in Hdet, Hlive.
    rewrite Forall_forall in IH, Hdet, Hlive. apply Forall_forall.
    intros e He. split; [apply IH; auto|by apply notes_respects].
  - intros s t ns s' nt t' Hag Hs Ht.
    apply bind_Ok in Hs as (m1 & s1 & Hm1 & Hs).
    apply bind_Ok in Ht as (m2 & t1 & Hm2 & Ht).
    unfold py_mod in Hm1, Hm2. destruct (length child =? 0); [done|].
    injection Hm1 as <- <-. injection Hm2 as <- <-.
    by eapply IH.
  - apply andb_prop in Hlive as [Hlive Hpad].
    destruct (tick <? length effect); [by apply IH|].
    intros s t ns s' nt t' Hag [= -> <-] [= <- <-].
    apply (agree_deref bound); [done|]. by apply forallb_Forall_lt.
  - done.
  - done.
  - destruct (len =? 0); [intros s t ns s' nt t' _ [=]|].
    intros s t ns s' nt t' Hag Hs Ht.
    apply bind_Ok in Hs as (out1 & s1 & Hm1 & Hr1). injection Hr1 as <- <-.
    apply bind_Ok in Ht as (out2 & t1 & Hm2 & Hr2). injection Hr2 as <- <-.
    apply ColorWheel_objs in Hm1 as [_ Hd1].
    apply ColorWheel_objs in Hm2 as [_ Hd2].
    by eexists.
Qed.

(** Rendering an effect that contains neither [Random] nor [RandomColor]
    is a function of the effect and the tick: it draws nothing from the
    generator and touches no selection; rendered again at the same tick it
    returns notes with the same positions and colours in the same order, and
    the notes returned the first time are unchanged. *)
Theorem notes_idempotent (e : Effect) (bound : nat) (tick : Z) (s : state)
    (ns : list loc) (s1 : state) (ns' : list loc) (s2 : state) :
  deterministic e = true -> live bound e = true ->
  (bound <= List.length (heap s))%nat ->
  notes e tick s = Ok (VList ns, s1) ->
  notes e tick s1 = Ok (VList ns', s2) ->
  (exists objs, deref s1 ns objs /\ deref s2 ns objs /\ deref s2 ns' objs)
  /\ sel s2 = sel s /\ draws s2 = draws s /\ entropy s2 = entropy s.
Proof.
  intros Hdet Hlive Hb Hrun1 Hrun2.
  pose proof (notes_prefix _ _ _ _ _ Hrun1) as Hpre1.
  pose proof (notes_prefix _ _ _ _ _ Hrun2) as Hpre2.
  assert (Hag : agree bound s s1).
  { apply agree_sym. apply (agree_grow bound s s1 s); [|done].
    by repeat split. }
  destruct (notes_same_render e bound Hdet Hlive tick _ _ _ _ _ _ Hag
              Hrun1 Hrun2) as (objs & Hd1 & Hd2).
  split.
  - exists objs. split; [done|]. split; [|done]. by eapply deref_extend.
  - destruct (notes_quiet e Hdet tick _ _ _ Hrun1) as [Hs1 Hd1'].
    destruct (notes_quiet e Hdet tick _ _ _ Hrun2) as [Hs2 Hd2'].
    destruct (notes_respects e (fun _ => False) ltac:(done) tick _ _ _ Hrun1)
      as (_ & _ & He1 & _).
    destruct (notes_respects e (fun _ => False) ltac:(done) tick _ _ _ Hrun2)
      as (_ & _ & He2 & _).
    repeat split; congruence.
Qed.

(** ** The further properties at concrete inputs *)

Lemma midi_note_of_grid_bijection_witness :
  0 <= midi_note_of (3, 4) < 100
  /\ in_grid (54 mod 10 - 1, 54 / 10 - 1)
  /\ midi_note_of (54 mod 10 - 1, 54 / 10 - 1) = 54.
Proof.
  destruct midi_note_of_grid_bijection as (Hrange & _ & Hinv).
  split.
  - apply Hrange. unfold in_grid. simpl. lia.
  - apply Hinv. lia.
Defined.

Lemma write_buf_messages_valid_witness :
  0 <= 0 <= 127
  /\ exists n : nat, 0 = Z.of_nat n
                     /\ [Palette 5] !! n = Some (Palette 5).
Proof.
  apply (write_buf_messages_valid
           (MkLaunchpad [Palette 5] [Palette 0] []) (note_on 0 5)).
  - simpl. lia.
  - simpl. apply list_elem_of_here.
Defined.

Lemma pad_effects_idempotent_witness :
  pad_effects [Note 0%nat; Note 1%nat] default_pad = [Note 0%nat; Note 1%nat].
Proof.
  destruct (pad_effects_idempotent [Note 0%nat; Note 1%nat]
              default_pad default_pad) as (_ & Hsame & _).
  apply (Hsame 1). repeat constructor.
Defined.

Lemma Sequential_notes_locate_witness :
  notes (Sequential [Note 0%nat; Note 1%nat; Note 2%nat]) 1 demo_state
  = notes (Note 1%nat) (1 - length (Sequential [Note 0%nat])) demo_state.
Proof.
  apply (Sequential_notes_locate [Note 0%nat] [Note 2%nat] (Note 1%nat) 1
           demo_state).
  - repeat constructor. simpl. lia.
  - simpl. lia.
Defined.

Lemma Sequential_flatten_witness :
  notes (Sequential [Sequential [Note 0%nat]; Sequential [Note 1%nat]]) 1
        demo_state
  = notes (Sequential ([Note 0%nat] ++ [Note 1%nat])) 1 demo_state.
Proof.
  apply (Sequential_flatten [Note 0%nat] [Note 1%nat] 1 demo_state).
  - repeat constructor. simpl. lia.
  - repeat constructor. simpl. lia.
  - lia.
Defined.

Lemma Loop_Loop_witness :
  notes (Loop (Loop demo_sequence 2) 3) 7 demo_state
  = notes (Loop demo_sequence (2 * 3)) 7 demo_state.
Proof.
  destruct (Loop_Loop demo_sequence 2 3) as (_ & Hsame & _).
  apply Hsame; [simpl; lia|lia].
Defined.

Lemma Translate_notes_shift_witness :
  exists out s',
    notes (Translate demo_rectangle (1, 1)) 0 demo_state = Ok (VList out, s')
    /\ deref s' out (map (shift (1, 1)) (heap demo_state)).
Proof.
  destruct (Translate_notes_shift demo_rectangle (1, 1) 0 demo_state)
    as (_ & _ & Hshift).
  destruct (Hshift [0; 1; 2; 3]%nat demo_state (heap demo_state) eq_refl
              ltac:(repeat constructor))
    as (out & s' & Hrun & Hd & _).
  by exists out, s'.
Defined.

Lemma Translate_Translate_witness :
  exists out2 s2 out s',
    notes (Translate (Translate demo_rectangle (1, 0)) (0, 1)) 0 demo_state
    = Ok (VList out2, s2)
    /\ notes (Translate demo_rectangle (1 + 0, 0 + 1)) 0 demo_state
       = Ok (VList out, s')
    /\ exists moved, deref s2 out2 moved /\ deref s' out moved.
Proof.
  destruct (Translate_Translate demo_rectangle (1, 0) (0, 1) 0 demo_state
              [0; 1; 2; 3]%nat demo_state (heap demo_state) eq_refl
              ltac:(repeat constructor))
    as (out2 & s2 & out & s' & H2 & H1 & moved & Hd2 & Hd1 & _).
  exists out2, s2, out, s'. split; [exact H2|]. split; [exact H1|].
  by exists moved.
Defined.

Lemma notes_frame_witness :
  exists v s',
    notes (Translate demo_rectangle (1, 1)) 0 demo_state = Ok (v, s')
    /\ (exists added, heap s' = heap demo_state ++ added)
    /\ sel s' !! 0%nat = sel demo_state !! 0%nat.
Proof.
  eexists _, _.
  match goal with
  | |- ?A /\ _ => assert (H : A) by (vm_compute; reflexivity)
  end.
  split; [exact H|].
  destruct (notes_frame _ _ _ _ _ H) as (Hadd & _ & _ & _ & Hcell).
  split; [exact Hadd|]. apply Hcell. reflexivity.
Defined.

Lemma notes_returns_live_witness :
  exists ns s',
    notes (Translate demo_rectangle (1, 1)) 0 demo_state = Ok (VList ns, s')
    /\ Forall (fun n => (n < List.length (heap s'))%nat) ns.
Proof.
  eexists _, _.
  match goal with
  | |- ?A /\ _ => assert (H : A) by (vm_compute; reflexivity)
  end.
  split; [exact H|].
  exact (proj1 (notes_returns_live (Translate demo_rectangle (1, 1)) 4 0
                  demo_state _ _ eq_refl ltac:(simpl; lia) H)).
Defined.

Lemma notes_total_witness :
  exists ns s' objs,
    notes (Loop (Translate demo_rectangle (1, 1)) 3) 2 demo_state
    = Ok (VList ns, s')
    /\ deref s' ns objs.
Proof.
  apply (notes_total (Loop (Translate demo_rectangle (1, 1)) 3) 4 2 demo_state).
  - reflexivity.
  - reflexivity.
  - simpl. lia.
  - simpl. lia.
Defined.

Lemma Concurrent_init_total_witness :
  exists ns s' objs,
    notes (Concurrent_init [Note 0%nat; demo_sequence]) 1 demo_state
    = Ok (VList ns, s')
    /\ deref s' ns objs.
Proof.
  apply (Concurrent_init_total [Note 0%nat; demo_sequence] 4 1 demo_state).
  - by repeat constructor.
  - by repeat constructor.
  - simpl. lia.
  - by vm_compute.
Defined.

Lemma play_final_pass_witness :
  exists lp' s',
    play (Note 0%nat) (Q2Qc 120) Launchpad_init demo_state = Ok (lp', s')
    /\ buf lp' = replicate 100 (Palette 0)
    /\ List.length (back_buf lp') = 100%nat.
Proof.
  eexists _, _.
  match goal with
  | |- ?A /\ _ => assert (H : A) by (vm_compute; reflexivity)
  end.
  split; [exact H|].
  destruct (play_final_pass (Note 0%nat) (Q2Qc 120) Launchpad_init demo_state
              _ _ 100 eq_refl eq_refl H)
    as (Hbuf & Hback & _).
  by split.
Defined.

Lemma draw_notes_last_wins_witness :
  exists b',
    draw_notes [0; 1]%nat (replicate 100 (Palette 0)) demo_state
    = Ok (b', demo_state)
    /\ List.length b' = 100%nat.
Proof.
  destruct (draw_notes_last_wins [0; 1]%nat
              [MkNote (0, 0) (Palette 5); MkNote (0, 1) (Palette 5)]
              (replicate 100 (Palette 0)) demo_state
              ltac:(repeat constructor))
    as (b' & Hrun & Hlen & _).
  by exists b'.
Defined.

Lemma Fullscreen_fills_witness :
  exists lp' s',
    (e <- Fullscreen (Palette 7) ;; draw_effect e 0 Launchpad_init) demo_state
    = Ok (lp', s')
    /\ buf lp' = replicate 100 (Palette 7)
    /\ back_buf lp' = back_buf Launchpad_init
    /\ port lp' = port Launchpad_init.
Proof.
  apply (Fullscreen_fills (Palette 7) 0 Launchpad_init demo_state).
  reflexivity.
Defined.

Lemma play_nothing_to_send_witness :
  port (write_buf Launchpad_init) = port Launchpad_init
  /\ play (Sequential []) (Q2Qc 120) Launchpad_init demo_state
     = Ok (Launchpad_init, demo_state).
Proof.
  destruct (play_nothing_to_send (Sequential []) (Q2Qc 120) Launchpad_init
              demo_state 100) as [Hsame Hempty].
  split; [by apply Hsame|].
  apply Hempty; [simpl; lia| |reflexivity|reflexivity].
  intros H. apply (f_equal this) in H. vm_compute in H. discriminate.
Defined.

Lemma write_buf_increasing_witness :
  cell_of (note_on 0 1) < cell_of (note_on 1 2).
Proof.
  apply (write_buf_increasing
           (MkLaunchpad [Palette 1; Palette 2] [Palette 0; Palette 0] [])
           0 1 (note_on 0 1) (note_on 1 2)).
  - lia.
  - reflexivity.
  - reflexivity.
Defined.

Lemma Random_notes_held_witness :
  notes (Random [demo_sequence; Note 0%nat] 0%nat) 1 demo_state
  = notes demo_sequence 1 demo_state.
Proof.
  destruct (Random_notes_held [demo_sequence; Note 0%nat] 0%nat 1 demo_state)
    as (_ & _ & Hheld).
  rewrite (Hheld 0 demo_sequence); [reflexivity|lia|reflexivity|lia
                                    |reflexivity].
Defined.

Lemma notes_idempotent_witness :
  exists ns s1 ns' s2,
    notes (Translate demo_rectangle (1, 1)) 0 demo_state = Ok (VList ns, s1)
    /\ notes (Translate demo_rectangle (1, 1)) 0 s1 = Ok (VList ns', s2)
    /\ exists objs, deref s1 ns objs /\ deref s2 ns objs /\ deref s2 ns' objs.
Proof.
  eexists _, _, _, _.
  match goal with
  | |- ?A /\ _ => assert (H1 : A) by (vm_compute; reflexivity)
  end.
  split; [exact H1|].
  match goal with
  | |- ?A /\ _ => assert (H2 : A) by (vm_compute; reflexivity)
  end.
  split; [exact H2|].
  exact (proj1 (notes_idempotent (Translate demo_rectangle (1, 1)) 4 0
                  demo_state _ _ _ _ eq_refl eq_refl
                  ltac:(simpl; lia) H1 H2)).
Defined.

Lemma Rectangle_init_box_witness :
  exists box ns s',
    Rectangle_init (0, 0) (1, 1) (Palette 5) (empty_state (fun _ => 0))
    = Ok (Rectangle ns, s')
    /\ heap s' = map (fun p => MkNote p (Palette 5)) box
    /\ List.length box = 4%nat
    /\ ((0, 1) ∈ box <-> 0 <= 0 <= 1 /\ 0 <= 1 <= 1).
Proof.
  destruct (Rectangle_init_box (0, 0) (1, 1) (Palette 5)
              (empty_state (fun _ => 0)))
    as (box & ns & s' & Hrun & Hheap & _ & _ & _ & _ & _ & Hbox & Hlen & _).
  exists box, ns, s'. split; [exact Hrun|]. split; [exact Hheap|].
  split; [exact Hlen|]. exact (Hbox 0 1).
Defined.
